(** * StateVectorSync (SVS) and SVS-PS subscriber of NDNts: a shallow embedding

    Sources embedded here:
    - [packages/packet/src/name/component.ts]  (name components),
    - the SvSync participant ([SvSync], [SvSyncNode]),
    - [packages/sync/src/svs/subscriber.ts]    ([SvSubscriber]).

    The state vector class, the subscription table, the SyncUpdate record,
    the name class and the helpers of [@ndn/util] live in modules that are
    not embedded here; they are modelled from the specification and marked
    as such. *)

From stdpp Require Import gmap strings list fin_maps numbers pretty.
From Stdlib Require Import ZArith Lia.

Set Default Proof Using "Type".
Local Open Scope N_scope.

(** ** Names *)

(** [Component]: a TLV-TYPE together with a TLV-VALUE. *)
Record Component := mkComponent { type : N; value : string }.

#[global] Instance Component_eq_dec : EqDecision Component.
Proof. solve_decision. Defined.

#[global] Instance Component_countable : Countable Component.
Proof.
  refine (inj_countable' (λ c, (type c, value c)) (λ p, mkComponent p.1 p.2) _).
  by intros [].
Defined.

(** A naming convention recognises, builds and reads components. *)
Record NamingConvention (R : Type) := mkConvention {
  conv_match : Component → bool;
  conv_create : R → Component;
  conv_parse : Component → R;
}.
Arguments mkConvention {R} _ _ _.
Arguments conv_match {R} _ _.
Arguments conv_create {R} _ _.
Arguments conv_parse {R} _ _.

(** [Component.is]. *)
Definition comp_is {R} (c : Component) (convention : NamingConvention R) : bool :=
  conv_match convention c.

(** [Component.as]: throws (here [None]) when the component does not follow
    the convention. *)
Definition comp_as {R} (c : Component) (convention : NamingConvention R) : option R :=
  if comp_is c convention then Some (conv_parse convention c) else None.

(** [Component.equals]. *)
Definition equals (c other : Component) : bool := bool_decide (c = other).

(** A name is a sequence of components. *)
Abbreviation Name := (list Component).

(** Generic component (TLV-TYPE 8) from its text. *)
Definition comp (s : string) : Component := mkComponent 8 s.

(** ** State vector *)

(** One entry of a vector difference; also the content of a [SyncUpdate]. *)
Record SyncRange := mkRange { id : Name; loSeqNum : N; hiSeqNum : N }.

#[global] Instance SyncRange_eq_dec : EqDecision SyncRange.
Proof. solve_decision. Defined.

Abbreviation StateVector := (gmap Name N).

Module SvStateVector.

(** Modelled from the spec: the class [SvStateVector] (svs/state-vector) is
    missing. [get(id)] is the sequence number of [id], 0 for an unknown id. *)
Definition get (this : StateVector) (id : Name) : N := default 0 (this !! id).

(** Modelled from the spec: [SvStateVector.set] is missing. [set(id, n)] sets
    directly. *)
Definition set (this : StateVector) (id : Name) (n : N) : StateVector :=
  <[id := n]> this.

(** Modelled from the spec: [SvStateVector.mergeFrom] is missing.
    [mergeFrom(other)], for every id in [other], sets this vector's value to
    [max(this.get(id), other.get(id))]. *)
Definition mergeFrom (this other : StateVector) : StateVector :=
  map_fold (λ id otherSeqNum acc, set acc id (N.max (get acc id) otherSeqNum))
           this other.

(** Modelled from the spec: [SvStateVector.listOlderThan] is missing.
    [listOlderThan(other)], for every id where
    [this.get(id) < other.get(id)], emits one range
    [(this.get(id)+1 .. other.get(id))]. Ids absent from [other] have value
    0 there and never qualify, so the entries of [other] are enumerated. *)
Definition listOlderThan (this other : StateVector) : list SyncRange :=
  omap (λ '(id, otherSeqNum),
          let thisSeqNum := get this id in
          if thisSeqNum <? otherSeqNum
          then Some (mkRange id (thisSeqNum + 1) otherSeqNum)
          else None)
       (map_to_list other).

End SvStateVector.

Import SvStateVector.

(** ** The SvSync participant *)

(** Detail of a [debug] event. *)
Record DebugEntry := mkDebugEntry {
  action : string;
  debug_own : StateVector;
  debug_recv : option StateVector;
  debug_state : string;
  nextState : option string;
  debug_ourOlder : option nat;
  debug_ourNewer : option nat;
}.

(** What a handler does to the outside world, in program order. *)
Inductive Effect :=
| EvDebug (detail : DebugEntry)          (* dispatchTypedEvent("debug", ...) *)
| EvUpdate (update : SyncRange)          (* dispatchTypedEvent("update", ...) *)
| ClearTimeout                           (* clearTimeout(this.timer) *)
| SetTimeout (delay : N)                 (* setTimeout(this.handleTimer, delay) *)
| SendSyncInterest (sv : StateVector)    (* sync Interest carrying own.toComponent() *)
| ProducerClose.                         (* this.producer.close() *)

(** What the surroundings supply to one run-to-completion handler: the clock,
    the next sample of the two jittered timers ([randomJitter]), and whether
    a [debug] listener has been attached ([maybeHaveEventListener.debug]). *)
Record Env := mkEnv {
  now : N;
  steadyTimer : N;
  suppressionTimer : N;
  maybeHaveDebugListener : bool;
}.

(** Fields of [SvSync] that change over time. [timer] holds the deadline of
    the pending timeout, if one was armed and not cleared. *)
Record SvSync := mkSvSync {
  own : StateVector;
  aggregated : option StateVector;
  timer : option N;
  closed : bool;
}.

Definition set_own (f : StateVector → StateVector) (s : SvSync) : SvSync :=
  mkSvSync (f (own s)) (aggregated s) (timer s) (closed s).
Definition set_aggregated (a : option StateVector) (s : SvSync) : SvSync :=
  mkSvSync (own s) a (timer s) (closed s).
Definition set_timer (t : option N) (s : SvSync) : SvSync :=
  mkSvSync (own s) (aggregated s) t (closed s).
Definition set_closed (c : bool) (s : SvSync) : SvSync :=
  mkSvSync (own s) (aggregated s) (timer s) c.

(** A method of [SvSync]: reads and updates the fields, logs effects. *)
Definition M (A : Type) : Type := SvSync → A * SvSync * list Effect.

Definition ret {A} (a : A) : M A := λ s, (a, s, []).
Definition bind {A B} (m : M A) (k : A → M B) : M B :=
  λ s, let '(a, s1, e1) := m s in
       let '(b, s2, e2) := k a s1 in
       (b, s2, e1 ++ e2).
Definition this : M SvSync := λ s, (s, s, []).
Definition modify (f : SvSync → SvSync) : M unit := λ s, (tt, f s, []).
Definition emit (e : Effect) : M unit := λ s, (tt, s, [e]).
Definition when (b : bool) (m : M unit) : M unit := if b then m else ret tt.
(** [for (const x of l) body(x)]. *)
Fixpoint for_each {A} (l : list A) (body : A → M unit) : M unit :=
  match l with
  | [] => ret tt
  | x :: l' => bind (body x) (λ _, for_each l' body)
  end.

#[global] Instance M_ret : MRet M := @ret.
#[global] Instance M_bind : MBind M := λ A B k m, bind m k.

(** State and effects of running a method. *)
Definition exec {A} (m : M A) (s : SvSync) : SvSync * list Effect :=
  let '(_, s', e) := m s in (s', e).

Section SvSync.
Variable env : Env.

Definition state_name (s : SvSync) : string :=
  if aggregated s is Some _ then "suppression" else "steady".

(** [SvSync.debug]. *)
Definition debug (action : string) (nextState : option string)
    (ourOlder ourNewer : option nat) (recv : option StateVector) : M unit :=
  s ← this;
  when (maybeHaveDebugListener env)
    (emit (EvDebug (mkDebugEntry action (own s) recv (state_name s)
                                 nextState ourOlder ourNewer))).

(** [SvSync.resetTimer]. *)
Definition resetTimer (immediate : bool) : M unit :=
  emit ClearTimeout;;
  s ← this;
  let delay := if immediate then 0
               else if aggregated s is Some _ then suppressionTimer env
               else steadyTimer env in
  emit (SetTimeout delay);;
  modify (set_timer (Some (now env + delay))).

(** [SvSync.sendSyncInterest]. Signing and the exchange itself happen
    later; whatever comes back is dropped. *)
Definition sendSyncInterest : M unit :=
  debug "send" None None None None;;
  s ← this;
  emit (SendSyncInterest (own s)).

(** [SvSync.handlePublish]. *)
Definition handlePublish : M unit :=
  debug "publish" None None None None;;
  resetTimer true.

(** [SvSync.handleSyncInterest], after the verifier accepted the Interest
    and the vector [recv] was decoded from its name; from there on the
    handler runs to completion. Listeners of the [update] event are taken
    not to call back into the participant. *)
Definition handleSyncInterest (recv : StateVector) : M unit :=
  s ← this;
  let ourOlder := listOlderThan (own s) recv in
  let ourNewer := listOlderThan recv (own s) in
  debug "recv"
    (if negb (bool_decide (is_Some (aggregated s))) && (0 <? length ourNewer)%nat
     then Some "suppression" else None)
    (Some (length ourOlder)) (Some (length ourNewer)) (Some recv);;
  modify (set_own (λ own, mergeFrom own recv));;
  for_each ourOlder (λ r, emit (EvUpdate r));;
  s ← this;
  match aggregated s with
  | Some agg => (* in suppression state *)
      modify (set_aggregated (Some (mergeFrom agg recv)))
  | None =>
      if (0 <? length ourNewer)%nat
      then (* in steady state, entering suppression state *)
        modify (set_aggregated (Some recv));;
        resetTimer false
      else (* in steady state *)
        resetTimer false
  end.

(** [SvSync.handleTimer]. *)
Definition handleTimer : M unit :=
  s ← this;
  match aggregated s with
  | Some agg => (* in suppression state, exiting to steady state *)
      let ourNewer := listOlderThan agg (own s) in
      debug "timer" (Some "steady") None (Some (length ourNewer)) None;;
      when (0 <? length ourNewer)%nat sendSyncInterest;;
      modify (set_aggregated None)
  | None => (* in steady state *)
      debug "timer" None None None None;;
      sendSyncInterest
  end;;
  resetTimer false.

(** [SvSync.close]. *)
Definition close : M unit :=
  emit ClearTimeout;;
  modify (set_timer None);;
  emit ProducerClose;;
  modify (set_closed true).

(** [SvSyncNode.seqNum] getter, for the node of [id]. *)
Definition seqNum (id : Name) : M N :=
  s ← this; ret (get (own s) id).

(** [SvSyncNode.seqNum] setter: [node.seqNum = n], for an integer [n] of
    either sign. *)
Definition set_seqNum (id : Name) (n : Z) : M unit :=
  cur ← seqNum id;
  if (n <=? Z.of_N cur)%Z then ret tt
  else
    modify (set_own (λ own, set own id (Z.to_N n)));;
    handlePublish.

End SvSync.

(** *** Observing effects *)

(** Sync Interests sent, by the state vector they carry. *)
Definition sent (es : list Effect) : list StateVector :=
  omap (λ e, if e is SendSyncInterest sv then Some sv else None) es.

(** [update] events raised. *)
Definition updates (es : list Effect) : list SyncRange :=
  omap (λ e, if e is EvUpdate u then Some u else None) es.

(** Calls of [clearTimeout] and [setTimeout]. *)
Definition timerOps (es : list Effect) : list Effect :=
  omap (λ e, match e with ClearTimeout | SetTimeout _ => Some e | _ => None end) es.

(** *** Runs of the participant *)

Inductive Input :=
| Publish (id : Name) (n : Z)            (* [sync.get(id).seqNum = n] *)
| RecvSyncInterest (recv : StateVector)  (* a verified, decoded sync Interest *)
| TimerFired                             (* the pending timeout expires *)
| Close.                                 (* [sync.close()] *)

Definition handle (env : Env) (i : Input) : M unit :=
  match i with
  | Publish id n => set_seqNum env id n
  | RecvSyncInterest recv => handleSyncInterest env recv
  | TimerFired => handleTimer env
  | Close => close
  end.

(** When the surroundings can deliver an input: the timeout callback runs
    only for a pending timer whose deadline has passed, the producer handler
    only until the producer is closed. *)
Definition enabled (env : Env) (i : Input) (s : SvSync) : Prop :=
  match i with
  | Publish _ _ | Close => True
  | RecvSyncInterest _ => closed s = false
  | TimerFired => ∃ deadline, timer s = Some deadline ∧ deadline ≤ now env
  end.

(** A freshly constructed participant: empty vector, steady, no timer. *)
Definition initial : SvSync := mkSvSync ∅ None None false.

Inductive reachable : SvSync → Prop :=
| reachable_initial : reachable initial
| reachable_step s env i :
    reachable s → enabled env i s → reachable (exec (handle env i) s).1.


(** *** Concrete scenarios and the invariant *)

(** Publisher ["A"] and an environment for the concrete scenarios. *)
Definition A_id : Name := [comp "A"].
Definition env0 : Env := mkEnv 1000 30000 200 false.

(** In suppression state the own vector is nowhere behind [aggregated]. *)
Definition own_covers_aggregated (s : SvSync) : Prop :=
  ∀ agg, aggregated s = Some agg → ∀ id, get agg id ≤ get (own s) id.

(** A run: publish A=5, then receive {A:3}. *)
Definition run_publish_recv : SvSync :=
  (exec (handle env0 (RecvSyncInterest {[A_id := 3]}))
        (exec (handle env0 (Publish A_id 5)) initial).1).1.


(** ** The SVS-PS subscriber *)

Abbreviation bytes := (list Byte.byte).

(** Outcome of an operation that may throw. *)
Inductive Result (A : Type) :=
| Ok (a : A)
| Err (err : string).
Arguments Ok {A} _.
Arguments Err {A} _.

#[global] Instance Result_ret : MRet Result := @Ok.
#[global] Instance Result_bind : MBind Result :=
  λ A B k m, match m with Ok a => k a | Err err => Err err end.
#[global] Instance Result_fmap : FMap Result :=
  λ A B f m, match m with Ok a => Ok (f a) | Err err => Err err end.

Record Data := mkData { data_name : Name; content : bytes }.
Record Interest := mkInterest { interest_name : Name; canBePrefix : bool }.

(** [SvSubscriber.Update]: what a subscription receives. *)
Record Update := mkUpdate {
  publisher : Name;
  update_seqNum : N;
  update_name : Name;
  payload : bytes;
}.

(** A subscription handle; handles are told apart by identity. *)
Abbreviation Sub := nat (only parsing).

(** What the subscriber does to the outside world, in program order. *)
Inductive SubEffect :=
| SendInterest (interest : Interest)   (* endpoint.consume(interest, ...) *)
| Fetch (name : Name)                  (* fetch(name, ...) of a segmented object *)
| EmitError (message : string)         (* this.emit("error", new Error(message)) *)
| Deliver (sub : Sub) (update : Update). (* the subscription receives the update *)

(** An asynchronous method of the subscriber: the effects performed, then
    either a value or the exception that ended it. *)
Definition D (A : Type) : Type := list SubEffect * Result A.

Definition D_ret {A} (a : A) : D A := ([], Ok a).
Definition D_bind {A B} (m : D A) (k : A → D B) : D B :=
  match m with
  | (es, Ok a) => let '(es', r) := k a in (es ++ es', r)
  | (es, Err err) => (es, Err err)
  end.
#[global] Instance D_mret : MRet D := @D_ret.
#[global] Instance D_mbind : MBind D := λ A B k m, D_bind m k.

Definition perform (e : SubEffect) : D unit := ([e], Ok tt).
Definition throw {A} (err : string) : D A := ([], Err err).
Definition lift {A} (r : Result A) : D A := ([], r).
(** [assert(cond)] of @ndn/util. *)
Definition assert (cond : bool) : D unit :=
  if cond then D_ret tt else throw "Error: assertion failed".
(** [try { body } catch (err) { handler(err) }]. *)
Definition try_catch (body : D unit) (handler : string → D unit) : D unit :=
  match body with
  | (es, Ok _) => (es, Ok tt)
  | (es, Err err) => let '(es', r) := handler err in (es ++ es', r)
  end.
Fixpoint for_each_D {A} (l : list A) (body : A → D unit) : D unit :=
  match l with
  | [] => D_ret tt
  | x :: l' => D_bind (body x) (λ _, for_each_D l' body)
  end.

(** *** Names, tables and buffers used by the subscriber *)

(** Modelled from the spec: [Name.get] (@ndn/packet) is missing.
    [Name.get(i)] is the component at index [i],
    counted from the end when [i] is negative; undefined out of range. *)
Definition name_get (name : Name) (i : Z) : option Component :=
  let j := if (i <? 0)%Z then (Z.of_nat (length name) + i)%Z else i in
  if (j <? 0)%Z then None else name !! Z.to_nat j.

(** Modelled from the spec: [Name.getPrefix] (@ndn/packet) is missing.
    [Name.getPrefix(-n)] is the name without its last [n] components. *)
Definition name_dropLast (n : nat) (name : Name) : Name :=
  take (length name - n) name.

(** Modelled from the spec: [lpm] (@ndn/packet) is missing. Longest-prefix
    match: the entries found at the prefixes of [name], longest prefix
    first. *)
Definition lpm {Entry} (name : Name) (get : Name → option Entry) : list Entry :=
  omap (λ n, get (take n name)) (reverse (seq 0 (S (length name)))).

Module SubscriptionTable.

(** Modelled from the spec: the class [SubscriptionTable]
    (detail/subscription-table) is missing. It indexes the handles by their
    scope, a publisher identifier or a name prefix. *)
Abbreviation t := (gmap Name (list Sub)).

(** Modelled from the spec: [SubscriptionTable.list] is missing.
    [list(scope)] is all handles whose scope is exactly [scope]. *)
Definition list (table : t) (scope : Name) : list Sub :=
  default [] (table !! scope).

(** Modelled from the spec: [SubscriptionTable.dimension] is missing: the
    number of scopes that have a subscription. *)
Definition dimension (table : t) : nat := size table.

(** Modelled from the spec: [SubscriptionTable.subscribe] is missing.
    [subscribe(scope)] files the new handle under its scope. *)
Definition subscribe (table : t) (scope : Name) (sub : Sub) : t :=
  <[scope := list table scope ++ [sub]]> table.

(** Modelled from the spec: [SubscriptionTable.update] is missing.
    [update(handles, payload)] delivers the payload to every handle in the
    set, once. *)
Definition update (set : Datatypes.list Sub) (u : Update) : D unit :=
  for_each_D set (λ sub, perform (Deliver sub u)).

End SubscriptionTable.

(** [n] consecutive sequence numbers from [a]. *)
Definition seqFrom (a : N) (n : nat) : list N :=
  (λ i, a + N.of_nat i) <$> seq 0 n.

(** Modelled from the spec: [SyncUpdate.seqNums] (sync/src/types) is
    missing: the sequence numbers of the contiguous, inclusive range
    [loSeqNum..hiSeqNum] in increasing order. *)
Definition seqNums (update : SyncRange) : list N :=
  seqFrom (loSeqNum update) (N.to_nat (hiSeqNum update + 1 - loSeqNum update)).

(** [batch(size)] of streaming-iterables: items are pushed to the current
    batch, which is yielded when its length equals [size]; a non-empty rest
    is yielded at the end. *)
Fixpoint batch_from {A} (size : nat) (dataBatch : list A) (iterable : list A)
    : list (list A) :=
  match iterable with
  | [] => if (0 <? length dataBatch)%nat then [dataBatch] else []
  | data :: rest =>
      let dataBatch := dataBatch ++ [data] in
      if (length dataBatch =? size)%nat
      then dataBatch :: batch_from size [] rest
      else batch_from size dataBatch rest
  end.
Definition batch {A} (size : nat) (iterable : list A) : list (list A) :=
  batch_from size [] iterable.

(** A JavaScript array of buffers, possibly with holes. *)
Abbreviation jsarray := (list (option bytes)).

(** [arr[i] = v]: an index at or past the end extends the array, leaving
    holes in between. *)
Definition js_set (arr : jsarray) (i : nat) (v : bytes) : jsarray :=
  if (i <? length arr)%nat then <[i := Some v]> arr
  else arr ++ replicate (i - length arr) None ++ [Some v].

(** [arr.length = n]: truncates, or extends with holes. *)
Definition js_set_length (arr : jsarray) (n : nat) : jsarray :=
  take n arr ++ replicate (n - length arr) None.

(** Modelled from the spec: [concatBuffers] (@ndn/util) is missing.
    [concatBuffers(arr, totalLength)] concatenates the buffers in index order into one contiguous buffer of
    [totalLength] bytes. Each buffer is written at the running offset; a hole
    has no bytes to write and a write past the end does not fit, both
    throw. *)
Definition concatBuffers (arr : jsarray) (totalLength : nat) : Result bytes :=
  fst <$> foldl (λ (acc : Result (bytes * nat)) (buf : option bytes),
       '(output, offset) ← acc;
       match buf with
       | None => Err "TypeError: Cannot read properties of undefined"
       | Some b =>
           if (offset + length b <=? length output)%nat
           then Ok (take offset output ++ b ++ drop (offset + length b) output,
                    (offset + length b)%nat)
           else Err "RangeError: offset is out of bounds"
       end)
    (Ok (replicate totalLength Byte.x00, 0%nat)) arr.

(** *** The subscriber and its collaborators *)

(** Options of the subscriber and the collaborators it calls: the endpoint
    and the segmented fetcher answer as the network does, the decoders and
    verifiers accept or throw. *)
Class SubscriberEnv (MappingEntry : Type) := mkSubscriberEnv {
  (* options *)
  syncPrefix : Name;
  mappingBatch : nat;
  mustFilterByMapping : bool;
  (* [endpoint.consume]: the Data, verified with the verifier in the
     options, or the rejection *)
  endpoint_consume : Interest → Result Data;
  (* [fetch(name).unordered()]: the outer segments in arrival order, then
     possibly a rejection *)
  fetch_unordered : Name → list Data * option string;
  (* [new Decoder(content).decode(Data)] *)
  decodeData : bytes → Result Data;
  (* [innerVerifier.verify] *)
  innerVerifier : Data → bool;
  (* [mappingEVD.decode]: the entries it stored before it possibly threw *)
  mappingEVD_decode : bytes → list MappingEntry * option string;
  (* [SvMappingEntry] fields *)
  entry_seqNum : MappingEntry → N;
  entry_name : MappingEntry → Name;
  (* naming conventions and constants of the SVS-PS name space *)
  Segment : NamingConvention N;
  GenericNumber : NamingConvention N;
  Version0 : Component;
  MappingKeyword : Component;
  (* [Name.toString] *)
  Name_toString : Name → string;
}.

(** Fields of [SvSubscriber] that change over time. *)
Record SvSubscriber (MappingEntry : Type) := mkSvSubscriber {
  nameSubs : SubscriptionTable.t;
  nameFilters : gmap Sub (MappingEntry → bool);
  publisherSubs : SubscriptionTable.t;
  nextSub : Sub;
}.
Arguments mkSvSubscriber {MappingEntry} _ _ _ _.
Arguments nameSubs {MappingEntry} _.
Arguments nameFilters {MappingEntry} _.
Arguments publisherSubs {MappingEntry} _.
Arguments nextSub {MappingEntry} _.

(** [SvSubscriber.SubscribeInfo]. *)
Inductive SubscribeInfo (MappingEntry : Type) :=
| SubscribePublisher (publisher : Name)
| SubscribePrefix (prefix : Name)
| SubscribePrefixFilter (prefix : Name) (filter : MappingEntry → bool).
Arguments SubscribePublisher {MappingEntry} _.
Arguments SubscribePrefix {MappingEntry} _.
Arguments SubscribePrefixFilter {MappingEntry} _ _.

(** [Map<number, MappingEntry>]. *)
Abbreviation Mapping M := (gmap N M).

Section SvSubscriber.
Context {MappingEntry : Type} {E : SubscriberEnv MappingEntry}.

(** A subscriber without subscriptions. *)
Definition new_subscriber : SvSubscriber MappingEntry :=
  mkSvSubscriber ∅ ∅ ∅ 0%nat.

(** [SvSubscriber.subscribe]. *)
Definition subscribe (topic : SubscribeInfo MappingEntry)
    (this : SvSubscriber MappingEntry) : Sub * SvSubscriber MappingEntry :=
  let sub := nextSub this in
  match topic with
  | SubscribePublisher publisher =>
      (sub, mkSvSubscriber (nameSubs this) (nameFilters this)
              (SubscriptionTable.subscribe (publisherSubs this) publisher sub)
              (S sub))
  | SubscribePrefix prefix =>
      (sub, mkSvSubscriber (SubscriptionTable.subscribe (nameSubs this) prefix sub)
              (nameFilters this) (publisherSubs this) (S sub))
  | SubscribePrefixFilter prefix filter =>
      (sub, mkSvSubscriber (SubscriptionTable.subscribe (nameSubs this) prefix sub)
              (<[sub := filter]> (nameFilters this)) (publisherSubs this) (S sub))
  end.

(** [SvSubscriber.listNameSubs]. *)
Definition listNameSubs (this : SvSubscriber MappingEntry) (name : Name)
    (entry : option MappingEntry) : list Sub :=
  flat_map (λ set : list Sub,
      match entry with
      | Some entry =>
          List.filter (λ sub, match nameFilters this !! sub with
                              | Some filter => filter entry
                              | None => true
                              end) set
      | None => set
      end)
    (lpm name (λ prefix, Some (SubscriptionTable.list (nameSubs this) prefix))).

(** Name of the mapping Interest for [loSeqNum..hiSeqNum]. *)
Definition mappingInterestName (id : Name) (loSeqNum hiSeqNum : N) : Name :=
  id ++ syncPrefix ++
    [MappingKeyword; conv_create GenericNumber loSeqNum;
     conv_create GenericNumber hiSeqNum].

Definition retrieveMapping_error (id : Name) (loSeqNum hiSeqNum : N)
    (err : string) : string :=
  "retrieveMapping(" +:+ Name_toString id +:+ "," +:+ pretty loSeqNum +:+ ".."
    +:+ pretty hiSeqNum +:+ "): " +:+ err.

(** The body of [retrieveMapping] for the batches still to be asked for. *)
Fixpoint retrieveMapping_batches (id : Name) (batches : list (list N))
    (m : Mapping MappingEntry) : D (Mapping MappingEntry) :=
  match batches with
  | [] => mret m
  | range :: batches =>
      let loSeqNum := hd 0 range in
      let hiSeqNum := List.last range 0 in
      let interest := mkInterest (mappingInterestName id loSeqNum hiSeqNum) false in
      perform (SendInterest interest);;
      match endpoint_consume interest with
      | Ok data =>
          let '(entries, failure) := mappingEVD_decode (content data) in
          let m := foldl (λ m entry, <[entry_seqNum entry := entry]> m) m entries in
          match failure with
          | Some err =>
              perform (EmitError (retrieveMapping_error id loSeqNum hiSeqNum err))
          | None => mret tt
          end;;
          retrieveMapping_batches id batches m
      | Err err =>
          perform (EmitError (retrieveMapping_error id loSeqNum hiSeqNum err));;
          retrieveMapping_batches id batches m
      end
  end.

(** [SvSubscriber.retrieveMapping]. *)
Definition retrieveMapping (update : SyncRange) : D (Mapping MappingEntry) :=
  retrieveMapping_batches (id update) (batch mappingBatch (seqNums update)) ∅.

(** The loop of [retrieveSegmented] over the segments still to arrive;
    [vars] are the variables [decap] closes over. *)
Fixpoint retrieveSegmented_loop {V} (decap : V → Data → D (V * option Data))
    (arrivals : list Data) (vars : V) (segments : jsarray)
    (nSegments totalLength : nat) : D (V * jsarray * nat * nat) :=
  match arrivals with
  | [] => mret (vars, segments, nSegments, totalLength)
  | outer :: arrivals =>
      '(vars, inner) ← decap vars outer;
      match inner with
      | None => throw "Error: assertion failed"
      | Some inner =>
          match name_get (data_name inner) (-1) with
          | None => throw "TypeError: Cannot read properties of undefined"
          | Some segmentComp =>
              assert (comp_is segmentComp Segment);;
              match comp_as segmentComp Segment with
              | None => throw "Error: component does not follow convention"
              | Some segNum =>
                  retrieveSegmented_loop decap arrivals vars
                    (js_set segments (N.to_nat segNum) (content inner))
                    (S nSegments) (totalLength + length (content inner))%nat
              end
          end
      end
  end.

(** [SvSubscriber.retrieveSegmented]. *)
Definition retrieveSegmented {V} (outerPrefix : Name)
    (decap : V → Data → D (V * option Data)) (vars : V) : D (V * bytes) :=
  let fetching := fetch_unordered (outerPrefix ++ [Version0]) in
  perform (Fetch (outerPrefix ++ [Version0]));;
  '(vars, segments, nSegments, totalLength) ←
    retrieveSegmented_loop decap fetching.1 vars [] 0%nat 0%nat;
  match fetching.2 with Some err => throw err | None => mret tt end;;
  let segments := js_set_length segments nSegments in
  payload ← lift (concatBuffers segments totalLength);
  mret (vars, payload).

(** The closure [decap] of [dispatchUpdate]; [vars] holds the captured
    variables [name] and [nameSubs]. *)
Definition decap (this : SvSubscriber MappingEntry) (publisherSubs : list Sub)
    (seqNum : N) (mapping : option (Mapping MappingEntry))
    (vars : option Name * option (list Sub)) (outer : Data)
    : D ((option Name * option (list Sub)) * option Data) :=
  inner ← lift (decodeData (content outer));
  (if innerVerifier inner then mret tt else throw "Error: incorrect signature value");;
  let name :=
    match vars.1 with
    | Some name => name
    | None =>
        match name_get (data_name inner) (-2) with
        | Some c => if equals c Version0 then name_dropLast 2 (data_name inner)
                    else data_name inner
        | None => data_name inner
        end
    end in
  let nameSubs :=
    match vars.2 with
    | Some nameSubs => nameSubs
    | None => listNameSubs this name (mapping ≫= (.!! seqNum))
    end in
  if (length nameSubs =? 0)%nat && (length publisherSubs =? 0)%nat
  then mret ((Some name, Some nameSubs), None)
  else mret ((Some name, Some nameSubs), Some inner).

(** [SvSubscriber.dispatchUpdate], from the retrieval of the outer Data on;
    [nameSubs] is the captured variable as the test before left it. *)
Definition dispatchUpdate_retrieve (this : SvSubscriber MappingEntry)
    (publisher : Name) (publisherSubs : list Sub) (seqNum : N)
    (mapping : option (Mapping MappingEntry)) (nameSubs : option (list Sub))
    : D unit :=
  let outerPrefix := publisher ++ syncPrefix ++ [conv_create GenericNumber seqNum] in
  let interest := mkInterest outerPrefix true in
  perform (SendInterest interest);;
  outer ← lift (endpoint_consume interest);
  '(vars, inner) ← decap this publisherSubs seqNum mapping (None, nameSubs) outer;
  match inner with
  | None => mret tt
  | Some inner =>
      '(vars, payload) ←
        (if bool_decide (data_name outer = outerPrefix)
         then mret (vars, content inner)
         else retrieveSegmented outerPrefix
                (decap this publisherSubs seqNum mapping) vars);
      let update := mkUpdate publisher seqNum (default [] vars.1) payload in
      SubscriptionTable.update publisherSubs update;;
      SubscriptionTable.update (default [] vars.2) update
  end.

(** [SvSubscriber.dispatchUpdate]. *)
Definition dispatchUpdate (this : SvSubscriber MappingEntry) (publisher : Name)
    (publisherSubs : list Sub) (seqNum : N)
    (mapping : option (Mapping MappingEntry)) : D unit :=
  match (if (length publisherSubs =? 0)%nat then mapping else None) with
  | Some mapping' =>
      match mapping' !! seqNum with
      | None => mret tt
      | Some entry =>
          let nameSubs := listNameSubs this (entry_name entry) (Some entry) in
          if (length nameSubs =? 0)%nat then mret tt
          else dispatchUpdate_retrieve this publisher publisherSubs seqNum mapping
                 (Some nameSubs)
      end
  | None =>
      dispatchUpdate_retrieve this publisher publisherSubs seqNum mapping None
  end.

Definition dispatchUpdate_error (id : Name) (seqNum : N) (err : string) : string :=
  "dispatchUpdate(" +:+ Name_toString id +:+ ", " +:+ pretty seqNum +:+ "): " +:+ err.

(** The mapping [handleSyncUpdate] hands to [dispatchUpdate]. *)
Definition handleSyncUpdate_mapping (this : SvSubscriber MappingEntry)
    (update : SyncRange) : D (option (Mapping MappingEntry)) :=
  let publisherSubs := SubscriptionTable.list (publisherSubs this) (id update) in
  if negb (SubscriptionTable.dimension (nameSubs this) =? 0)%nat &&
     ((length publisherSubs =? 0)%nat || mustFilterByMapping)
  then mapping ← retrieveMapping update; mret (Some mapping)
  else mret None.

(** [SvSubscriber.handleSyncUpdate]. The sequence numbers are worked on
    side by side; here their effects are listed one sequence number after
    the other. *)
Definition handleSyncUpdate (this : SvSubscriber MappingEntry)
    (update : SyncRange) : D unit :=
  let publisherSubs := SubscriptionTable.list (publisherSubs this) (id update) in
  mapping ← handleSyncUpdate_mapping this update;
  for_each_D (seqNums update) (λ seqNum,
    try_catch (dispatchUpdate this (id update) publisherSubs seqNum mapping)
      (λ err, perform (EmitError (dispatchUpdate_error (id update) seqNum err)))).

End SvSubscriber.

(** *** Observing the subscriber *)

(** Interests handed to [endpoint.consume]. *)
Definition sentInterests (es : list SubEffect) : list Interest :=
  omap (λ e, if e is SendInterest i then Some i else None) es.

(** The ranges [retrieveMapping] asks for: first and last sequence number of
    every batch. *)
Definition mappingRanges (size : nat) (update : SyncRange) : list (N * N) :=
  (λ range, (hd 0 range, List.last range 0)) <$> batch size (seqNums update).

(** The array read at an index: a buffer, or nothing for a hole or an index
    past the end. *)
Definition js_get (arr : jsarray) (i : nat) : option bytes := mjoin (arr !! i).

Section SvSubscriberRuns.
Context {MappingEntry : Type} {E : SubscriberEnv MappingEntry}.

(** Subscribers obtained from a new one by calls of [subscribe]. *)
Inductive built : SvSubscriber MappingEntry → Prop :=
| built_new : built new_subscriber
| built_subscribe this topic : built this → built (subscribe topic this).2.

(** Handles are fresh; a handle with a filter sits in the name table and
    in no set of the publisher table. *)
Definition handles_separate (this : SvSubscriber MappingEntry) : Prop :=
  (∀ sub, is_Some (nameFilters this !! sub) → (sub < nextSub this)%nat) ∧
  (∀ sub scope, sub ∈ SubscriptionTable.list (publisherSubs this) scope →
                (sub < nextSub this)%nat ∧ nameFilters this !! sub = None) ∧
  (∀ sub, is_Some (nameFilters this !! sub) →
          ∃ prefix, sub ∈ SubscriptionTable.list (nameSubs this) prefix).

(** The subscriber with the filter of handle [sub] taken away: [sub] as a
    plain name-prefix subscription. *)
Definition without_filter (sub : Sub) (this : SvSubscriber MappingEntry)
    : SvSubscriber MappingEntry :=
  mkSvSubscriber (nameSubs this) (delete sub (nameFilters this))
    (publisherSubs this) (nextSub this).

(** What working on one sequence number contributes to the effects of
    [handleSyncUpdate]: the effects of its [dispatchUpdate] and, when that
    throws, the error event. *)
Definition dispatch_outcome (this : SvSubscriber MappingEntry) (update : SyncRange)
    (mapping : option (Mapping MappingEntry)) (seqNum : N) : list SubEffect :=
  match dispatchUpdate this (id update)
          (SubscriptionTable.list (publisherSubs this) (id update)) seqNum mapping with
  | (es, Ok _) => es
  | (es, Err err) => es ++ [EmitError (dispatchUpdate_error (id update) seqNum err)]
  end.

(** The outer Data [outer] decapsulates, with the variables [vars] of
    [decap] left as they are, to the segment with index [i] of [segs]. *)
Definition carries_segment {V} (decap : V → Data → D (V * option Data))
    (vars : V) (segs : list bytes) (outer : Data) (i : nat) : Prop :=
  ∃ inner segmentComp,
    decap vars outer = ([], Ok (vars, Some inner)) ∧
    name_get (data_name inner) (-1) = Some segmentComp ∧
    comp_is segmentComp Segment = true ∧
    conv_parse Segment segmentComp = N.of_nat i ∧
    segs !! i = Some (content inner).

End SvSubscriberRuns.

(** ** A small network for concrete runs *)

(** Mapping entries of the base class: sequence number and name. *)
Record ex_Entry := mkEntry { ex_seqNum : N; ex_name : Name }.

(** A convention for numbers below 256: TLV-TYPE [tt], one byte of value. *)
Definition ex_number (tt : N) : NamingConvention N :=
  mkConvention
    (λ c, (type c =? tt) && (String.length (value c) =? 1)%nat)
    (λ n, mkComponent tt (String (Ascii.ascii_of_N n) ""))
    (λ c, match value c with String a _ => Ascii.N_of_ascii a | EmptyString => 0 end).

Definition ex_Segment : NamingConvention N := ex_number 50.
Definition ex_GenericNumber : NamingConvention N := ex_number 8.
Definition ex_Version0 : Component := conv_create (ex_number 54) 0.
Definition ex_MappingKeyword : Component := mkComponent 32 "MAPPING".

Definition ex_syncPrefix : Name := [comp "sync"].
(** Publisher /P and topic prefix /T. *)
Definition ex_P : Name := [comp "P"].
Definition ex_T : Name := [comp "T"].

(** Name of the outer Data of publication [seqNum] of /P. *)
Definition ex_outerPrefix (seqNum : N) : Name :=
  ex_P ++ ex_syncPrefix ++ [conv_create ex_GenericNumber seqNum].

(** The three segments of the large publication 3. *)
Definition ex_segments : list bytes :=
  String.list_byte_of_string <$> ["state "; "vector "; "sync"].

(** Inner Data are encoded as one byte that selects the name, followed by
    the content. *)
Definition ex_decodeData (wire : bytes) : Result Data :=
  match wire with
  | Byte.x01 :: content => Ok (mkData (ex_T ++ [comp "x"]) content)
  | Byte.x10 :: content =>
      Ok (mkData (ex_T ++ [comp "big"; ex_Version0; conv_create ex_Segment 0]) content)
  | Byte.x11 :: content =>
      Ok (mkData (ex_T ++ [comp "big"; ex_Version0; conv_create ex_Segment 1]) content)
  | Byte.x12 :: content =>
      Ok (mkData (ex_T ++ [comp "big"; ex_Version0; conv_create ex_Segment 2]) content)
  | _ => Err "Error: TLV-TYPE unexpected"
  end.

(** The outer segment [i] of publication 3. *)
Definition ex_outer_segment (i : N) (tag : Byte.byte) : Data :=
  mkData (ex_outerPrefix 3 ++ [ex_Version0; conv_create ex_Segment i])
         (tag :: default [] (ex_segments !! N.to_nat i)).

(** Publication 1 is a single packet, publication 2 cannot be retrieved,
    publication 3 is segmented; mapping Interests are answered with one entry
    for publication 1. *)
Definition ex_consume (interest : Interest) : Result Data :=
  let name := interest_name interest in
  if bool_decide (name = ex_outerPrefix 1)
  then Ok (mkData name (Byte.x01 :: String.list_byte_of_string "hello"))
  else if bool_decide (name = ex_outerPrefix 3)
  then Ok (ex_outer_segment 2 Byte.x12)
  else if bool_decide (name !! 2%nat = Some ex_MappingKeyword)
  then Ok (mkData name [Byte.x01])
  else Err "Error: Interest rejected: expire".

(** Segments of publication 3 arrive in the order 2, 0, 1. *)
Definition ex_fetch (name : Name) : list Data * option string :=
  if bool_decide (name = ex_outerPrefix 3 ++ [ex_Version0])
  then ([ex_outer_segment 2 Byte.x12; ex_outer_segment 0 Byte.x10;
         ex_outer_segment 1 Byte.x11], None)
  else ([], Some "Error: fetch failed").

Definition ex_mappingEVD_decode (wire : bytes) : list ex_Entry * option string :=
  match wire with
  | [Byte.x01] => ([mkEntry 1 (ex_T ++ [comp "x"])], None)
  | _ => ([], Some "Error: TLV-TYPE unexpected")
  end.

Definition ex_Name_toString (name : Name) : string :=
  fold_right (λ c s, "/" +:+ value c +:+ s) "" name.

Definition ex_env (mustFilterByMapping : bool) : SubscriberEnv ex_Entry :=
  {| syncPrefix := ex_syncPrefix;
     mappingBatch := 10;
     mustFilterByMapping := mustFilterByMapping;
     endpoint_consume := ex_consume;
     fetch_unordered := ex_fetch;
     decodeData := ex_decodeData;
     innerVerifier := λ _, true;
     mappingEVD_decode := ex_mappingEVD_decode;
     entry_seqNum := ex_seqNum;
     entry_name := ex_name;
     Segment := ex_Segment;
     GenericNumber := ex_GenericNumber;
     Version0 := ex_Version0;
     MappingKeyword := ex_MappingKeyword;
     Name_toString := ex_Name_toString |}.

(** A subscriber with handle 0 on prefix /T whose filter rejects every entry
    and handle 1 on publisher /P. *)
Definition ex_filtered_and_publisher : SvSubscriber ex_Entry :=
  (subscribe (SubscribePublisher ex_P)
     (subscribe (SubscribePrefixFilter ex_T (λ _, false))
        new_subscriber).2).2.

(** A subscriber with only handle 0 on prefix /T, rejecting every entry. *)
Definition ex_filtered : SvSubscriber ex_Entry :=
  (subscribe (SubscribePrefixFilter ex_T (λ _, false))
     new_subscriber).2.

(** A subscriber with only handle 0 on publisher /P. *)
Definition ex_publisher : SvSubscriber ex_Entry :=
  (subscribe (SubscribePublisher ex_P) new_subscriber).2.

(** ** Further observations *)

(** The effects other than [debug] events. *)
Definition withoutDebug (es : list Effect) : list Effect :=
  omap (λ e, match e with EvDebug _ => None | _ => Some e end) es.

(** The surroundings with the [debug] listener attached or not. *)
Definition with_debug_listener (b : bool) (env : Env) : Env :=
  mkEnv (now env) (steadyTimer env) (suppressionTimer env) b.

(** ** Order of components *)

(** [Component.CompareResult]: [LT] is -2, [EQUAL] is 0, [GT] is 2. *)
Inductive CompareResult := LT | EQUAL | GT.

#[global] Instance CompareResult_eq_dec : EqDecision CompareResult.
Proof. solve_decision. Defined.

(** [toCompareResult]. *)
Definition toCompareResult (diff : Z) : CompareResult :=
  if (diff =? 0)%Z then EQUAL else if (diff <? 0)%Z then LT else GT.

(** [a || b] on compare results: [EQUAL], the number 0, is the falsy one. *)
Definition or_else (a b : CompareResult) : CompareResult :=
  match a with EQUAL => b | _ => a end.

Section ComponentCompare.
(** The package [buffer-compare], which is not part of this repository. *)
Variable bufferCompare : string → string → Z.

(** [Component.compare], on two components ([Component.from] returns a
    component as it is). *)
Definition Component_compare (lhs rhs : Component) : CompareResult :=
  or_else (toCompareResult (Z.of_N (type lhs) - Z.of_N (type rhs)))
    (or_else (toCompareResult (Z.of_nat (String.length (value lhs))
                               - Z.of_nat (String.length (value rhs))))
       (toCompareResult (bufferCompare (value lhs) (value rhs)))).

(** [Component.equals] as the source writes it, through [compare]. *)
Definition equals_by_compare (c other : Component) : bool :=
  bool_decide (Component_compare c other = EQUAL).

End ComponentCompare.

(** A byte-wise comparison for [bufferCompare]: the first differing byte
    decides, a proper prefix is smaller. *)
Fixpoint ex_bufferCompare (a b : string) : Z :=
  match a, b with
  | EmptyString, EmptyString => 0
  | EmptyString, String _ _ => -1
  | String _ _, EmptyString => 1
  | String x a', String y b' =>
      if (Ascii.N_of_ascii x =? Ascii.N_of_ascii y)%N then ex_bufferCompare a' b'
      else if (Ascii.N_of_ascii x <? Ascii.N_of_ascii y)%N then (-1)%Z else 1%Z
  end.


Section SvSubscriberExtra.
Context {MappingEntry : Type} {E : SubscriberEnv MappingEntry}.

(** The topic name [decap] takes from an inner Data name: the name without
    its last two components when the second to last is the version marker,
    the name itself otherwise. *)
Definition topic_name (inner_name : Name) : Name :=
  match name_get inner_name (-2) with
  | Some c => if equals c Version0 then name_dropLast 2 inner_name else inner_name
  | None => inner_name
  end.

(** Name of the Interest for the outer Data of publication [seqNum]. *)
Definition outerInterest (publisher : Name) (seqNum : N) : Interest :=
  mkInterest (publisher ++ syncPrefix ++ [conv_create GenericNumber seqNum]) true.


(** Every handle filed in a table was handed out before. *)
Definition handles_below (this : SvSubscriber MappingEntry) : Prop :=
  (∀ sub scope, sub ∈ SubscriptionTable.list (nameSubs this) scope →
                (sub < nextSub this)%nat) ∧
  (∀ sub scope, sub ∈ SubscriptionTable.list (publisherSubs this) scope →
                (sub < nextSub this)%nat).

(** No handle is filed twice: not twice under one scope, not under two
    scopes, not in both tables. *)
Definition handles_unique (this : SvSubscriber MappingEntry) : Prop :=
  (∀ scope, NoDup (SubscriptionTable.list (nameSubs this) scope)) ∧
  (∀ scope, NoDup (SubscriptionTable.list (publisherSubs this) scope)) ∧
  (∀ sub scope scope',
     sub ∈ SubscriptionTable.list (nameSubs this) scope →
     sub ∈ SubscriptionTable.list (nameSubs this) scope' → scope = scope') ∧
  (∀ sub scope scope',
     sub ∈ SubscriptionTable.list (nameSubs this) scope →
     sub ∉ SubscriptionTable.list (publisherSubs this) scope').

(** The scope a subscription asks for, and the table it goes to. *)
Definition listed (topic : SubscribeInfo MappingEntry)
    (this : SvSubscriber MappingEntry) : list Sub :=
  match topic with
  | SubscribePublisher publisher =>
      SubscriptionTable.list (publisherSubs this) publisher
  | SubscribePrefix prefix | SubscribePrefixFilter prefix _ =>
      SubscriptionTable.list (nameSubs this) prefix
  end.

End SvSubscriberExtra.

(** A mapping with the entry of publication 1, named /T/x. *)
Definition ex_mapping : Mapping ex_Entry :=
  {[ 1 := mkEntry 1 (ex_T ++ [comp "x"]) ]}.


(** A network on which nothing can be retrieved. *)
Definition ex_env_down : SubscriberEnv ex_Entry :=
  {| syncPrefix := ex_syncPrefix;
     mappingBatch := 10;
     mustFilterByMapping := false;
     endpoint_consume := λ _, Err "Error: Interest rejected: expire";
     fetch_unordered := λ _, ([], Some "Error: fetch failed");
     decodeData := ex_decodeData;
     innerVerifier := λ _, true;
     mappingEVD_decode := ex_mappingEVD_decode;
     entry_seqNum := ex_seqNum;
     entry_name := ex_name;
     Segment := ex_Segment;
     GenericNumber := ex_GenericNumber;
     Version0 := ex_Version0;
     MappingKeyword := ex_MappingKeyword;
     Name_toString := ex_Name_toString |}.

(** *** Facts about the state vector *)

Lemma get_empty id : get ∅ id = 0.
Proof. reflexivity. Qed.

Lemma get_set_eq v id n : get (set v id n) id = n.
Proof. unfold get, set. by rewrite lookup_insert_eq. Qed.

Lemma get_set_ne v id id' n : id ≠ id' → get (set v id n) id' = get v id'.
Proof. intros. unfold get, set. by rewrite lookup_insert_ne. Qed.

Lemma lookup_mergeFrom (this other : StateVector) (id : Name) :
  mergeFrom this other !! id =
  match other !! id with
  | Some n => Some (N.max (get this id) n)
  | None => this !! id
  end.
Proof.
  unfold mergeFrom. revert id.
  apply (map_fold_weak_ind (λ (r m : StateVector), ∀ id,
    r !! id = match m !! id with
              | Some n => Some (N.max (get this id) n)
              | None => this !! id
              end)).
  - intros id. by rewrite lookup_empty.
  - intros i x m r Hi IH id. unfold set.
    destruct (decide (i = id)) as [->|Hne].
    + rewrite !lookup_insert_eq. unfold get at 1. rewrite IH, Hi. done.
    + rewrite !lookup_insert_ne by done. apply IH.
Qed.

Lemma get_mergeFrom this other id :
  get (mergeFrom this other) id = N.max (get this id) (get other id).
Proof.
  unfold get at 1. rewrite lookup_mergeFrom. unfold get.
  destruct (other !! id); simpl; [done|]. lia.
Qed.

Lemma elem_of_listOlderThan this other r :
  r ∈ listOlderThan this other ↔
  get this (id r) < get other (id r) ∧ is_Some (other !! id r) ∧
  loSeqNum r = get this (id r) + 1 ∧ hiSeqNum r = get other (id r).
Proof.
  unfold listOlderThan. rewrite list_elem_of_omap. split.
  - intros [[i n] [Hin Hr]]. apply elem_of_map_to_list in Hin.
    simpl in Hr. destruct (N.ltb_spec (get this i) n) as [Hlt|]; [|done].
    injection Hr as <-. simpl.
    assert (get other i = n) as -> by (unfold get; by rewrite Hin).
    eauto.
  - intros (Hlt & [n Hn] & Hlo & Hhi). exists (id r, n). split.
    + by apply elem_of_map_to_list.
    + assert (get other (id r) = n) as Hg by (unfold get; by rewrite Hn).
      rewrite Hg in Hlt, Hhi. simpl.
      destruct (N.ltb_spec (get this (id r)) n); [|lia].
      destruct r; simpl in *. by subst.
Qed.

(** The difference is empty exactly when [this] is nowhere behind [other]. *)
Lemma listOlderThan_nil this other :
  listOlderThan this other = [] ↔ ∀ id, get other id ≤ get this id.
Proof.
  split.
  - intros Hnil i. destruct (N.le_gt_cases (get other i) (get this i)) as [|Hlt]; [done|].
    assert (mkRange i (get this i + 1) (get other i) ∈ listOlderThan this other) as Hin.
    { apply elem_of_listOlderThan. simpl. split_and!; try done.
      destruct (other !! i) eqn:E; [by eexists|].
      assert (get other i = 0) by (unfold get; by rewrite E). lia. }
    rewrite Hnil in Hin. by apply elem_of_nil in Hin.
  - intros Hle. destruct (listOlderThan this other) as [|r l] eqn:E; [done|].
    assert (r ∈ listOlderThan this other) as Hin by (rewrite E; left).
    apply elem_of_listOlderThan in Hin as (Hlt & _). specialize (Hle (id r)). lia.
Qed.

(** *** Running the methods *)

Lemma for_each_emit {A} (f : A → Effect) (l : list A) (s : SvSync) :
  for_each l (λ x s, (tt, s, [f x])) s = (tt, s, f <$> l).
Proof.
  induction l as [|x l IH]; [done|].
  simpl. unfold bind. by rewrite IH.
Qed.

Ltac unfold_methods :=
  unfold exec, handle, handleTimer, handleSyncInterest, set_seqNum, seqNum,
    handlePublish, sendSyncInterest, resetTimer, close, debug, when,
    mbind, M_bind, bind, this, modify, emit, ret in *.

Lemma sent_app es1 es2 : sent (es1 ++ es2) = sent es1 ++ sent es2.
Proof. apply omap_app. Qed.

Lemma updates_app es1 es2 : updates (es1 ++ es2) = updates es1 ++ updates es2.
Proof. apply omap_app. Qed.

Lemma timerOps_app es1 es2 : timerOps (es1 ++ es2) = timerOps es1 ++ timerOps es2.
Proof. apply omap_app. Qed.

Lemma sent_updates (l : list SyncRange) : sent (EvUpdate <$> l) = [].
Proof. by induction l. Qed.

Lemma updates_updates (l : list SyncRange) : updates (EvUpdate <$> l) = l.
Proof. induction l; [done|]. simpl. by f_equal. Qed.

Lemma timerOps_updates (l : list SyncRange) : timerOps (EvUpdate <$> l) = [].
Proof. by induction l. Qed.

(** The state after [handleTimer]. *)
Lemma handleTimer_state env s :
  (exec (handleTimer env) s).1 =
  mkSvSync (own s) None (Some (now env + steadyTimer env)) (closed s).
Proof.
  unfold_methods. destruct s as [o [agg|] t c], (maybeHaveDebugListener env); simpl;
    try destruct (0 <? length (listOlderThan agg o))%nat; reflexivity.
Qed.

(** The state after [handleSyncInterest]. *)
Lemma handleSyncInterest_state env recv s :
  (exec (handleSyncInterest env recv) s).1 =
  match aggregated s with
  | Some agg =>
      mkSvSync (mergeFrom (own s) recv) (Some (mergeFrom agg recv)) (timer s) (closed s)
  | None =>
      if decide (listOlderThan recv (own s) = [])
      then mkSvSync (mergeFrom (own s) recv) None
                    (Some (now env + steadyTimer env)) (closed s)
      else mkSvSync (mergeFrom (own s) recv) (Some recv)
                    (Some (now env + suppressionTimer env)) (closed s)
  end.
Proof.
  unfold_methods.
  destruct s as [o [agg|] t c], (maybeHaveDebugListener env); simpl;
    rewrite for_each_emit; simpl; try reflexivity.
  all: destruct (listOlderThan recv o); simpl; reflexivity.
Qed.

(** The state after [node.seqNum = n]. *)
Lemma set_seqNum_state env id n s :
  (exec (set_seqNum env id n) s).1 =
  if decide (n ≤ Z.of_N (get (own s) id))%Z then s
  else mkSvSync (set (own s) id (Z.to_N n)) (aggregated s) (Some (now env + 0)) (closed s).
Proof.
  unfold_methods. simpl. destruct (Z.leb_spec n (Z.of_N (get (own s) id))).
  - rewrite decide_True by done. reflexivity.
  - rewrite decide_False by lia.
    destruct s as [o agg t c], (maybeHaveDebugListener env); reflexivity.
Qed.

(** The effects of [handleTimer]. *)
Lemma handleTimer_sent env s :
  sent (exec (handleTimer env) s).2 =
  match aggregated s with
  | Some agg => if decide (listOlderThan agg (own s) = []) then [] else [own s]
  | None => [own s]
  end.
Proof.
  unfold_methods.
  destruct s as [o [agg|] t c], (maybeHaveDebugListener env); simpl; try reflexivity.
  all: destruct (listOlderThan agg o); simpl; reflexivity.
Qed.

Lemma handleTimer_timerOps env s :
  timerOps (exec (handleTimer env) s).2 = [ClearTimeout; SetTimeout (steadyTimer env)].
Proof.
  unfold_methods.
  destruct s as [o [agg|] t c], (maybeHaveDebugListener env); simpl; try reflexivity.
  all: destruct (listOlderThan agg o); simpl; reflexivity.
Qed.

(** The effects of [handleSyncInterest]. *)
Lemma handleSyncInterest_updates env recv s :
  updates (exec (handleSyncInterest env recv) s).2 = listOlderThan (own s) recv.
Proof.
  unfold_methods.
  destruct s as [o [agg|] t c], (maybeHaveDebugListener env); simpl;
    rewrite for_each_emit; simpl.
  3,4: destruct (listOlderThan recv o); simpl.
  all: rewrite updates_app, updates_updates; simpl; by rewrite app_nil_r.
Qed.

Lemma handleSyncInterest_sent env recv s :
  sent (exec (handleSyncInterest env recv) s).2 = [].
Proof.
  unfold_methods.
  destruct s as [o [agg|] t c], (maybeHaveDebugListener env); simpl;
    rewrite for_each_emit; simpl.
  3,4: destruct (listOlderThan recv o); simpl.
  all: by rewrite sent_app, sent_updates.
Qed.

Lemma handleSyncInterest_timerOps env recv s :
  timerOps (exec (handleSyncInterest env recv) s).2 =
  match aggregated s with
  | Some _ => []
  | None => [ClearTimeout;
             SetTimeout (if decide (listOlderThan recv (own s) = [])
                         then steadyTimer env else suppressionTimer env)]
  end.
Proof.
  unfold_methods.
  destruct s as [o [agg|] t c], (maybeHaveDebugListener env); simpl;
    rewrite for_each_emit; simpl.
  3,4: destruct (listOlderThan recv o); simpl.
  all: by rewrite timerOps_app, timerOps_updates.
Qed.

(** The effects of [node.seqNum = n]. *)
Lemma set_seqNum_noop env id n s :
  (n ≤ Z.of_N (get (own s) id))%Z → set_seqNum env id n s = (tt, s, []).
Proof.
  intros Hle. unfold_methods. simpl.
  destruct (Z.leb_spec n (Z.of_N (get (own s) id))); [done|lia].
Qed.

Lemma set_seqNum_timerOps env id n s :
  (Z.of_N (get (own s) id) < n)%Z →
  timerOps (exec (set_seqNum env id n) s).2 = [ClearTimeout; SetTimeout 0].
Proof.
  intros Hlt. unfold_methods. simpl.
  destruct (Z.leb_spec n (Z.of_N (get (own s) id))); [lia|].
  destruct s as [o agg t c], (maybeHaveDebugListener env); reflexivity.
Qed.

(** *** The join-semilattice laws of [mergeFrom] *)

(** C4: for all state vectors A, B, C the pointwise-max merge is commutative,
    associative and idempotent: merge(A,B) = merge(B,A),
    merge(merge(A,B),C) = merge(A,merge(B,C)) and merge(A,A) = A, where
    merge applies the [mergeFrom] semantics. *)
Theorem mergeFrom_semilattice (A B C : StateVector) :
  mergeFrom A B = mergeFrom B A ∧
  mergeFrom (mergeFrom A B) C = mergeFrom A (mergeFrom B C) ∧
  mergeFrom A A = A.
Proof.
  split_and!; apply map_eq; intros i; rewrite !lookup_mergeFrom.
  - unfold get. destruct (A !! i), (B !! i); simpl; f_equal; lia.
  - unfold get. rewrite !lookup_mergeFrom. unfold get.
    destruct (A !! i), (B !! i), (C !! i); simpl; f_equal; lia.
  - unfold get. destruct (A !! i); simpl; f_equal; lia.
Qed.

(** *** The suppression timer *)

(** C1 (as stated, refuted): after publishing A=5 and receiving {A:3} the
    participant is in suppression with own = {A:5} and aggregated = {A:3}.
    There [own.listOlderThan(aggregated)] is empty and yet the suppression
    timer sends a sync Interest: the test is not the one the handler makes. *)
Lemma handleTimer_not_own_older_test :
  reachable run_publish_recv ∧
  aggregated run_publish_recv = Some {[A_id := 3]} ∧
  ¬ (sent (exec (handleTimer env0) run_publish_recv).2 ≠ [] ↔
     listOlderThan (own run_publish_recv) {[A_id := 3]} ≠ []).
Proof.
  split_and!.
  - unfold run_publish_recv. apply reachable_step.
    + apply reachable_step; [apply reachable_initial|exact I].
    + vm_compute. reflexivity.
  - vm_compute. reflexivity.
  - intros [Hsend _]. apply Hsend; vm_compute; [discriminate|reflexivity].
Qed.

(** C1 (amended): when the timer fires in suppression state, a sync Interest
    is sent if and only if [aggregated.listOlderThan(own)] is non-empty, that
    is, own exceeds the aggregated vector for some id; it then carries the own
    vector. In both cases [aggregated] is cleared (steady state), the own
    vector is untouched, and the timer is re-armed with the steady delay. *)
Theorem handleTimer_suppression env s agg :
  aggregated s = Some agg →
  let s' := (exec (handleTimer env) s).1 in
  let es := (exec (handleTimer env) s).2 in
  (sent es ≠ [] ↔ listOlderThan agg (own s) ≠ []) ∧
  (listOlderThan agg (own s) = [] → sent es = []) ∧
  (listOlderThan agg (own s) ≠ [] → sent es = [own s]) ∧
  aggregated s' = None ∧
  own s' = own s ∧
  timer s' = Some (now env + steadyTimer env) ∧
  timerOps es = [ClearTimeout; SetTimeout (steadyTimer env)].
Proof.
  intros Hagg. cbv zeta.
  rewrite handleTimer_sent, handleTimer_state, handleTimer_timerOps, Hagg. simpl.
  destruct (decide (listOlderThan agg (own s) = [])) as [E|E];
    split_and!; try done; try tauto.
Qed.

Lemma handleTimer_suppression_witness :
  let s := mkSvSync {[A_id := 5]} (Some {[A_id := 3]}) (Some 900) false in
  let s' := (exec (handleTimer env0) s).1 in
  let es := (exec (handleTimer env0) s).2 in
  aggregated s = Some {[A_id := 3]} ∧
  (sent es ≠ [] ↔ listOlderThan {[A_id := 3]} (own s) ≠ []) ∧
  (listOlderThan {[A_id := 3]} (own s) = [] → sent es = []) ∧
  (listOlderThan {[A_id := 3]} (own s) ≠ [] → sent es = [own s]) ∧
  aggregated s' = None ∧
  own s' = own s ∧
  timer s' = Some (now env0 + steadyTimer env0) ∧
  timerOps es = [ClearTimeout; SetTimeout (steadyTimer env0)].
Proof.
  intros s. split; [reflexivity|].
  exact (handleTimer_suppression env0 s {[A_id := 3]} eq_refl).
Defined.

(** C2: a steady participant with own vector {A:5} receives {A:3}. No update
    event is raised, it enters suppression with aggregated = {A:3}, and when
    the suppression timer then fires exactly one sync Interest is sent,
    carrying {A:5}. *)
Theorem scenario_own_ahead env1 env2 t c :
  let s0 := mkSvSync {[A_id := 5]} None t c in
  let r1 := exec (handleSyncInterest env1 {[A_id := 3]}) s0 in
  let r2 := exec (handleTimer env2) r1.1 in
  updates r1.2 = [] ∧
  sent r1.2 = [] ∧
  aggregated r1.1 = Some {[A_id := 3]} ∧
  own r1.1 = {[A_id := 5]} ∧
  timer r1.1 = Some (now env1 + suppressionTimer env1) ∧
  sent r2.2 = [ {[A_id := 5]} ] ∧
  updates r2.2 = [] ∧
  aggregated r2.1 = None.
Proof.
  assert (listOlderThan {[A_id := 5]} {[A_id := 3]} = []) as Holder
    by (vm_compute; reflexivity).
  assert (listOlderThan {[A_id := 3]} {[A_id := 5]} ≠ []) as Hnewer
    by (vm_compute; discriminate).
  assert (mergeFrom {[A_id := 5]} {[A_id := 3]} = {[A_id := 5]}) as Hmerge
    by (vm_compute; reflexivity).
  intros s0 r1 r2. subst r2 r1.
  rewrite handleTimer_sent, handleTimer_state, handleSyncInterest_state,
    handleSyncInterest_updates, handleSyncInterest_sent.
  subst s0. cbn [own aggregated timer closed].
  rewrite decide_False by done. cbn [own aggregated timer closed].
  rewrite Hmerge, Holder, decide_False by done.
  split_and!; try reflexivity.
  unfold_methods. destruct (maybeHaveDebugListener env2); reflexivity.
Qed.

(** *** Own dominates aggregated *)

Lemma own_covers_aggregated_initial : own_covers_aggregated initial.
Proof. intros agg Hagg. discriminate. Qed.

Lemma own_covers_aggregated_step env i s :
  own_covers_aggregated s → own_covers_aggregated (exec (handle env i) s).1.
Proof.
  intros Hinv. destruct i as [pid n|recv| |]; simpl handle.
  - (* publish: own only grows *)
    rewrite set_seqNum_state. case_decide as Hn; [done|].
    intros agg Hagg i. simpl in *. specialize (Hinv agg Hagg i).
    destruct (decide (pid = i)) as [->|Hne].
    + rewrite get_set_eq. lia.
    + by rewrite get_set_ne.
  - (* receive: merged into own before it reaches aggregated *)
    rewrite handleSyncInterest_state. destruct (aggregated s) as [agg0|] eqn:E.
    + intros agg [= <-] i. simpl. rewrite !get_mergeFrom.
      specialize (Hinv agg0 E i). lia.
    + case_decide; intros agg [= <-] i. simpl. rewrite get_mergeFrom. lia.
  - (* timer: back to steady *)
    rewrite handleTimer_state. intros agg [=].
  - (* close *)
    intros agg Hagg i. apply (Hinv agg Hagg i).
Qed.

(** C3: in every reachable state in which [aggregated] is defined,
    [own.get(id) >= aggregated.get(id)] for every publisher id; hence
    [own.listOlderThan(aggregated)] is empty whenever the suppression timer
    fires. *)
Theorem reachable_own_covers_aggregated s :
  reachable s →
  ∀ agg, aggregated s = Some agg →
    (∀ id, (get (own s) id >= get agg id)%N) ∧ listOlderThan (own s) agg = [].
Proof.
  intros Hreach.
  assert (own_covers_aggregated s) as Hinv.
  { induction Hreach as [|s env i _ IH _].
    - apply own_covers_aggregated_initial.
    - by apply own_covers_aggregated_step. }
  intros agg Hagg. split.
  - intros i. specialize (Hinv agg Hagg i). lia.
  - apply listOlderThan_nil. apply (Hinv agg Hagg).
Qed.

Lemma reachable_own_covers_aggregated_witness :
  reachable run_publish_recv ∧
  aggregated run_publish_recv = Some {[A_id := 3]} ∧
  (∀ id, (get (own run_publish_recv) id >= get ({[A_id := 3]} : StateVector) id)%N) ∧
  listOlderThan (own run_publish_recv) {[A_id := 3]} = [].
Proof.
  assert (reachable run_publish_recv) as Hreach.
  { unfold run_publish_recv. apply reachable_step.
    - apply reachable_step; [apply reachable_initial|exact I].
    - vm_compute. reflexivity. }
  assert (aggregated run_publish_recv = Some {[A_id := 3]}) as Hagg
    by (vm_compute; reflexivity).
  split; [exact Hreach|]. split; [exact Hagg|].
  exact (reachable_own_covers_aggregated run_publish_recv Hreach {[A_id := 3]} Hagg).
Defined.

(** *** Local publication is monotonic *)

(** C6: assigning [seqNum = n] with [n] not above the node's current sequence
    number changes nothing: the participant (own vector, aggregated vector,
    timer) is as before and nothing happens, in particular no timer is
    cleared or set. Only an assignment with [n] strictly greater than the
    current value modifies the vector, setting the node's entry to [n]. *)
Theorem set_seqNum_monotonic env s id n :
  let cur := Z.of_N (get (own s) id) in
  let s' := (exec (set_seqNum env id n) s).1 in
  let es := (exec (set_seqNum env id n) s).2 in
  ((n ≤ cur)%Z → s' = s ∧ es = []) ∧
  (own s' ≠ own s → (cur < n)%Z) ∧
  ((cur < n)%Z → own s' = set (own s) id (Z.to_N n) ∧
                 get (own s') id = Z.to_N n ∧
                 timerOps es = [ClearTimeout; SetTimeout 0]).
Proof.
  cbv zeta. split_and!.
  - intros Hle. unfold exec. by rewrite set_seqNum_noop.
  - intros Hne. destruct (Z.le_gt_cases n (Z.of_N (get (own s) id))) as [Hle|]; [|lia].
    exfalso. apply Hne. unfold exec. by rewrite set_seqNum_noop.
  - intros Hlt. rewrite set_seqNum_state, set_seqNum_timerOps by done.
    rewrite decide_False by lia. simpl. by rewrite get_set_eq.
Qed.

Lemma set_seqNum_monotonic_witness :
  let s := mkSvSync {[A_id := 5]} None (Some 900) false in
  (3 ≤ Z.of_N (get (own s) A_id))%Z ∧
  (exec (set_seqNum env0 A_id 3) s).1 = s ∧
  (exec (set_seqNum env0 A_id 3) s).2 = [].
Proof.
  intros s. assert (3 ≤ Z.of_N (get (own s) A_id))%Z as Hle by (vm_compute; discriminate).
  split; [exact Hle|].
  exact (proj1 (set_seqNum_monotonic env0 s A_id 3) Hle).
Defined.

(** *** Receiving while in suppression *)

(** C7: a vector received in suppression state is merged into [aggregated];
    the pending timer keeps its deadline (no [clearTimeout], no [setTimeout])
    and the participant stays in suppression. *)
Theorem handleSyncInterest_in_suppression env s agg recv :
  aggregated s = Some agg →
  let s' := (exec (handleSyncInterest env recv) s).1 in
  let es := (exec (handleSyncInterest env recv) s).2 in
  aggregated s' = Some (mergeFrom agg recv) ∧
  timer s' = timer s ∧
  timerOps es = [] ∧
  own s' = mergeFrom (own s) recv.
Proof.
  intros Hagg. cbv zeta.
  rewrite handleSyncInterest_state, handleSyncInterest_timerOps, Hagg. done.
Qed.

Lemma handleSyncInterest_in_suppression_witness :
  let s := mkSvSync {[A_id := 5]} (Some {[A_id := 3]}) (Some 900) false in
  let recv : StateVector := {[A_id := 4]} in
  let s' := (exec (handleSyncInterest env0 recv) s).1 in
  let es := (exec (handleSyncInterest env0 recv) s).2 in
  aggregated s = Some {[A_id := 3]} ∧
  aggregated s' = Some (mergeFrom {[A_id := 3]} recv) ∧
  timer s' = timer s ∧
  timerOps es = [] ∧
  own s' = mergeFrom (own s) recv.
Proof.
  intros s recv. split; [reflexivity|].
  exact (handleSyncInterest_in_suppression env0 s {[A_id := 3]} recv eq_refl).
Defined.


(** ** The subscriber: mapping retrieval in batches *)

Lemma seqNums_seqFrom u :
  seqNums u = seqFrom (loSeqNum u) (N.to_nat (hiSeqNum u + 1 - loSeqNum u)).
Proof. reflexivity. Qed.








Ltac unfold_D :=
  unfold mbind, D_mbind, D_bind, mret, D_mret, D_ret, perform, throw, lift,
    assert in *.

Lemma sentInterests_app es1 es2 :
  sentInterests (es1 ++ es2) = sentInterests es1 ++ sentInterests es2.
Proof. apply omap_app. Qed.

Section RetrieveMapping.
Context {MappingEntry : Type} {E : SubscriberEnv MappingEntry}.





End RetrieveMapping.



(** ** The subscriber: reassembly of segments *)

Lemma js_set_length_eq arr i v :
  length (js_set arr i v) = (length arr `max` S i)%nat.
Proof.
  unfold js_set. destruct (Nat.ltb_spec i (length arr)).
  - rewrite length_insert. lia.
  - rewrite !length_app, length_replicate. simpl. lia.
Qed.

Lemma js_get_js_set arr i v j :
  js_get (js_set arr i v) j = if decide (i = j) then Some v else js_get arr j.
Proof.
  unfold js_get, js_set. destruct (Nat.ltb_spec i (length arr)) as [Hi|Hi].
  - case_decide as Hij.
    + subst j. by rewrite list_lookup_insert_eq.
    + by rewrite list_lookup_insert_ne.
  - destruct (Nat.lt_ge_cases j (length arr)) as [Hj|Hj].
    + rewrite lookup_app_l by done. rewrite decide_False by lia. done.
    + rewrite lookup_app_r by done. rewrite (lookup_ge_None_2 arr j) by done.
      destruct (Nat.lt_trichotomy (j - length arr) (i - length arr)) as [Hlt|[Heq|Hgt]].
      * rewrite lookup_app_l by (by rewrite length_replicate).
        rewrite lookup_replicate_2 by done. rewrite decide_False by lia. done.
      * rewrite lookup_app_r by (rewrite length_replicate; lia).
        rewrite length_replicate, Heq, Nat.sub_diag. rewrite decide_True by lia. done.
      * rewrite lookup_app_r by (rewrite length_replicate; lia).
        rewrite length_replicate. rewrite decide_False by lia.
        destruct (j - length arr - (i - length arr))%nat as [|k] eqn:Hk; [lia|done].
Qed.

(** The array after the buffers [f i] were stored at the indices [order]. *)
Lemma js_get_fill (f : nat → bytes) (order : list nat) (arr : jsarray) (j : nat) :
  js_get (foldl (λ arr i, js_set arr i (f i)) arr order) j =
  if decide (j ∈ order) then Some (f j) else js_get arr j.
Proof.
  revert arr. induction order as [|i order IH]; intros arr; simpl.
  - destruct (decide (j ∈ [])) as [Hin%elem_of_nil|]; done.
  - rewrite IH. rewrite js_get_js_set.
    destruct (decide (j ∈ order)) as [Hin|Hnin].
    + rewrite decide_True; [done|]. by right.
    + destruct (decide (i = j)) as [->|Hne].
      * rewrite decide_True; [done|]. left.
      * rewrite decide_False; [done|]. intros [->|?]%elem_of_cons; done.
Qed.

Lemma js_set_length_length arr n : length (js_set_length arr n) = n.
Proof.
  unfold js_set_length. rewrite length_app, length_take, length_replicate. lia.
Qed.

Lemma js_get_js_set_length arr n j :
  (j < n)%nat → js_get (js_set_length arr n) j = js_get arr j.
Proof.
  intros Hj. unfold js_get, js_set_length.
  destruct (Nat.lt_ge_cases j (length arr)) as [Hlt|Hge].
  - rewrite lookup_app_l by (rewrite length_take; lia).
    by rewrite lookup_take_lt.
  - rewrite lookup_app_r by (rewrite length_take; lia).
    rewrite lookup_replicate_2 by (rewrite length_take; lia).
    by rewrite (lookup_ge_None_2 arr j).
Qed.

(** An array without holes is the list of its buffers. *)
Lemma jsarray_dense (arr : jsarray) (segs : list bytes) :
  length arr = length segs →
  (∀ j, (j < length segs)%nat → js_get arr j = segs !! j) →
  arr = Some <$> segs.
Proof.
  intros Hlen Hget. apply list_eq. intros j. rewrite list_lookup_fmap.
  destruct (Nat.lt_ge_cases j (length segs)) as [Hlt|Hge].
  - specialize (Hget j Hlt). unfold js_get in Hget.
    destruct (lookup_lt_is_Some_2 arr j) as [x Hx]; [lia|].
    destruct (lookup_lt_is_Some_2 segs j) as [y Hy]; [lia|].
    rewrite Hx, Hy in *. simpl in *. by subst.
  - rewrite !lookup_ge_None_2; [done|lia|lia].
Qed.

Lemma concatBuffers_fold (bufs : list bytes) (filled rest : bytes) :
  length rest = sum_list (length <$> bufs) →
  foldl (λ (acc : Result (bytes * nat)) (buf : option bytes),
       '(output, offset) ← acc;
       match buf with
       | None => Err "TypeError: Cannot read properties of undefined"
       | Some b =>
           if (offset + length b <=? length output)%nat
           then Ok (take offset output ++ b ++ drop (offset + length b) output,
                    (offset + length b)%nat)
           else Err "RangeError: offset is out of bounds"
       end)
    (Ok (filled ++ rest, length filled)) (Some <$> bufs)
  = Ok (filled ++ concat bufs, length (filled ++ concat bufs)).
Proof.
  revert filled rest. induction bufs as [|b bufs IH]; intros filled rest Hlen.
  - simpl in *. destruct rest; [|done]. by rewrite !app_nil_r.
  - rewrite fmap_cons. cbn [foldl]. cbn [mbind Result_bind].
    cbn in Hlen.
    assert (length filled + length b ≤ length (filled ++ rest))%nat as Hfit
      by (rewrite length_app; lia).
    apply Nat.leb_le in Hfit. rewrite Hfit.
    rewrite take_app_length.
    rewrite drop_app_ge by lia.
    replace (length filled + length b - length filled)%nat with (length b) by lia.
    rewrite app_assoc. rewrite <- (length_app filled b).
    rewrite IH.
    + simpl. by rewrite <- !app_assoc.
    + rewrite length_drop. lia.
Qed.

(** Buffers without holes and their total length concatenate in index order. *)
Lemma concatBuffers_dense (segs : list bytes) :
  concatBuffers (Some <$> segs) (sum_list (length <$> segs)) = Ok (concat segs).
Proof.
  unfold concatBuffers.
  pose proof (concatBuffers_fold segs [] (replicate (sum_list (length <$> segs)) Byte.x00))
    as Hfold.
  simpl in Hfold. rewrite Hfold; [done|]. by rewrite length_replicate.
Qed.

Section RetrieveSegmented.
Context {MappingEntry : Type} {E : SubscriberEnv MappingEntry}.
Context {V : Type} (decap : V → Data → D (V * option Data)) (vars : V).
Context (segs : list bytes).

Lemma retrieveSegmented_loop_run arrivals order segments nSegments totalLength :
  Forall2 (carries_segment decap vars segs) arrivals order →
  retrieveSegmented_loop decap arrivals vars segments nSegments totalLength =
  ([], Ok (vars,
           foldl (λ arr i, js_set arr i (default [] (segs !! i))) segments order,
           (nSegments + length order)%nat,
           (totalLength + sum_list ((λ i, length (default [] (segs !! i))) <$> order))%nat)).
Proof.
  intros Hall. revert segments nSegments totalLength.
  induction Hall as [|outer i arrivals order Hseg _ IH];
    intros segments nSegments totalLength.
  - simpl. unfold_D. by rewrite !Nat.add_0_r.
  - destruct Hseg as (inner & c & Hdecap & Hname & Hmatch & Hparse & Hcontent).
    cbn [retrieveSegmented_loop]. unfold_D. unfold comp_as.
rewrite Hdecap, Hname, Hmatch.
    unfold D_ret. rewrite Hparse, Nat2N.id, IH. cbn. rewrite Hcontent. cbn.
    by rewrite Nat.add_succ_r, Nat.add_assoc.
Qed.

(** C9: when the segments 0..k-1 of [segs] each arrive exactly once, in
    whatever order, and the stream then completes, the assembled payload is
    the concatenation of the segments' contents in ascending segment-index
    order. *)
Theorem retrieveSegmented_reassembles outerPrefix arrivals (order : list nat) :
  fetch_unordered (outerPrefix ++ [Version0]) = (arrivals, None) →
  order ≡ₚ seq 0 (length segs) →
  Forall2 (carries_segment decap vars segs) arrivals order →
  retrieveSegmented outerPrefix decap vars =
    ([Fetch (outerPrefix ++ [Version0])], Ok (vars, concat segs)).
Proof using Type.
  intros Hfetch Hperm Hall. unfold retrieveSegmented.
  rewrite Hfetch. cbn [fst snd]. unfold_D.
  rewrite (retrieveSegmented_loop_run _ _ _ _ _ Hall). cbn [app Nat.add].
  assert (length order = length segs) as Hlen.
  { rewrite Hperm. apply length_seq. }
  assert (js_set_length
            (foldl (λ arr i, js_set arr i (default [] (segs !! i))) [] order)
            (length order)
          = Some <$> segs) as ->.
  { apply jsarray_dense.
    - rewrite js_set_length_length. done.
    - intros j Hj. rewrite js_get_js_set_length by lia.
      rewrite (js_get_fill (λ i, default [] (segs !! i))). rewrite decide_True.
      + destruct (lookup_lt_is_Some_2 segs j Hj) as [x ->]. done.
      + rewrite Hperm. apply elem_of_seq. lia. }
  assert (sum_list ((λ i, length (default [] (segs !! i))) <$> order)
          = sum_list (length <$> segs)) as ->.
  { rewrite Hperm. f_equal. apply list_eq. intros j.
    rewrite !list_lookup_fmap.
    destruct (Nat.lt_ge_cases j (length segs)) as [Hj|Hj].
    - rewrite (lookup_seq_lt 0 (length segs) j Hj). simpl.
      destruct (lookup_lt_is_Some_2 segs j Hj) as [x ->]. done.
    - rewrite (lookup_seq_ge 0 (length segs) j Hj).
      by rewrite (lookup_ge_None_2 segs j). }
  rewrite concatBuffers_dense. done.
Qed.

End RetrieveSegmented.

Lemma retrieveSegmented_reassembles_witness :
  let decap := decap (E := ex_env false) ex_publisher [0%nat] 3 None in
  let vars := (Some (ex_T ++ [comp "big"]), Some []) in
  let arrivals := [ex_outer_segment 2 Byte.x12; ex_outer_segment 0 Byte.x10;
                   ex_outer_segment 1 Byte.x11] in
  ex_fetch (ex_outerPrefix 3 ++ [ex_Version0]) = (arrivals, None) ∧
  [2; 0; 1]%nat ≡ₚ seq 0 (length ex_segments) ∧
  Forall2 (carries_segment (E := ex_env false) decap vars ex_segments)
          arrivals [2; 0; 1]%nat ∧
  retrieveSegmented (E := ex_env false) (ex_outerPrefix 3) decap vars =
    ([Fetch (ex_outerPrefix 3 ++ [ex_Version0])],
     Ok (vars, String.list_byte_of_string "state vector sync")).
Proof.
  intros decap vars arrivals.
  assert (ex_fetch (ex_outerPrefix 3 ++ [ex_Version0]) = (arrivals, None)) as Hfetch
    by reflexivity.
  assert ([2; 0; 1]%nat ≡ₚ seq 0 (length ex_segments)) as Hperm.
  { etrans; [apply perm_swap|]. apply perm_skip, perm_swap. }
  assert (Forall2 (carries_segment (E := ex_env false) decap vars ex_segments)
            arrivals [2; 0; 1]%nat) as Hall.
  { repeat constructor; eexists _, _; split_and!; reflexivity. }
  split; [exact Hfetch|]. split; [exact Hperm|]. split; [exact Hall|].
  exact (retrieveSegmented_reassembles (E := ex_env false) decap vars ex_segments
           (ex_outerPrefix 3) arrivals [2; 0; 1]%nat Hfetch Hperm Hall).
Defined.

(** ** The subscriber: dispatch *)

(** *** Effects of composed methods *)

Lemma D_bind_effects {A B} (m : D A) (k : A → D B) (e : SubEffect) :
  e ∈ (D_bind m k).1 → e ∈ m.1 ∨ ∃ a, m.2 = Ok a ∧ e ∈ (k a).1.
Proof.
  destruct m as [es [a|err]]; simpl.
  - destruct (k a) as [es' r] eqn:Hk. simpl. intros [?|?]%elem_of_app; [by left|].
    right. exists a. by rewrite Hk.
  - by left.
Qed.

Lemma for_each_D_try_catch {A} (l : list A) (body : A → D unit)
    (message : A → string → string) :
  for_each_D l (λ x, try_catch (body x) (λ err, perform (EmitError (message x err)))) =
  (flat_map (λ x, match body x with
                  | (es, Ok _) => es
                  | (es, Err err) => es ++ [EmitError (message x err)]
                  end) l, Ok tt).
Proof.
  induction l as [|x l IH]; [done|].
  cbn [for_each_D flat_map]. rewrite IH. unfold D_bind, try_catch, perform.
  destruct (body x) as [es [[]|err]]; reflexivity.
Qed.

Lemma update_run (set : list Sub) (u : Update) :
  SubscriptionTable.update set u = ((λ sub, Deliver sub u) <$> set, Ok tt).
Proof.
  unfold SubscriptionTable.update. induction set as [|sub set IH]; [done|].
  cbn [for_each_D]. rewrite IH. reflexivity.
Qed.

Section Dispatch.
Context {MappingEntry : Type} {E : SubscriberEnv MappingEntry}.
Implicit Types (this : SvSubscriber MappingEntry) (mapping : option (Mapping MappingEntry)).

(** [retrieveMapping] completes, and delivers nothing. *)
Lemma retrieveMapping_batches_quiet id batches (m : Mapping MappingEntry) :
  ∃ es m', retrieveMapping_batches id batches m = (es, Ok m') ∧
           ∀ sub u, Deliver sub u ∉ es.
Proof.
  revert m. induction batches as [|range batches IH]; intros m.
  - exists [], m. split; [done|]. intros sub u. apply not_elem_of_nil.
  - cbn [retrieveMapping_batches]. unfold_D.
    destruct (endpoint_consume _) as [data|err].
    + destruct (mappingEVD_decode (content data)) as [entries failure].
      set (m1 := foldl _ m entries).
      destruct (IH m1) as (es & m' & -> & Hq).
      destruct failure as [err|]; eexists _, m'; (split; [reflexivity|]);
        intros sub u Hin; cbn in Hin;
        repeat (apply elem_of_cons in Hin as [Hin|Hin]; [discriminate|]);
        by apply Hq in Hin.
    + destruct (IH m) as (es & m' & -> & Hq).
      eexists _, m'. split; [reflexivity|]. intros sub u Hin. cbn in Hin.
      repeat (apply elem_of_cons in Hin as [Hin|Hin]; [discriminate|]).
      by apply Hq in Hin.
Qed.

(** The mapping handed to [dispatchUpdate]: none, or what [retrieveMapping]
    returned. *)
Lemma handleSyncUpdate_mapping_run this update :
  ∃ mes mapping,
    handleSyncUpdate_mapping this update = (mes, Ok mapping) ∧
    (∀ sub u, Deliver sub u ∉ mes) ∧
    (SubscriptionTable.dimension (nameSubs this) ≠ 0%nat →
     SubscriptionTable.list (publisherSubs this) (id update) = [] ∨
       mustFilterByMapping = true →
     ∃ m, mapping = Some m ∧ (retrieveMapping update).2 = Ok m).
Proof.
  unfold handleSyncUpdate_mapping.
  destruct (retrieveMapping_batches_quiet (id update)
              (batch mappingBatch (seqNums update)) ∅) as (es & m & Hrun & Hq).
  fold (retrieveMapping update) in Hrun.
  destruct (negb _ && _) eqn:Hcond.
  - unfold_D. rewrite Hrun. eexists _, _. split; [reflexivity|].
    split; [by rewrite app_nil_r|]. intros _ _. by exists m.
  - exists [], None. split; [reflexivity|]. split; [intros; apply not_elem_of_nil|].
    intros Hdim Hsubs. exfalso.
    apply andb_false_iff in Hcond as [Hc|Hc].
    + apply negb_false_iff, Nat.eqb_eq in Hc. done.
    + apply orb_false_iff in Hc as [Hc1 Hc2]. destruct Hsubs as [Hs|Hs].
      * rewrite Hs in Hc1. done.
      * congruence.
Qed.

(** The effects of [handleSyncUpdate]: those of the mapping retrieval, then
    the outcome of every sequence number of the range. *)
Lemma handleSyncUpdate_run this (update : SyncRange) mes mapping :
  handleSyncUpdate_mapping this update = (mes, Ok mapping) →
  handleSyncUpdate this update =
    (mes ++ flat_map (dispatch_outcome this update mapping) (seqNums update), Ok tt).
Proof.
  intros Hm. unfold handleSyncUpdate. unfold mbind, D_mbind, D_bind. rewrite Hm.
  rewrite for_each_D_try_catch. reflexivity.
Qed.

(** C10: [handleSyncUpdate] never rejects; its effects are those of the
    mapping retrieval followed, for every sequence number of the range, by
    what that sequence number's own [dispatchUpdate] does. When the
    [dispatchUpdate] of a sequence number throws, the exception is caught
    and an error event is emitted whose message names the publisher and the
    sequence number; the work on the other sequence numbers is what it
    would be without the failure. *)
Theorem handleSyncUpdate_isolates_failures this (update : SyncRange) :
  ∃ mes mapping,
    handleSyncUpdate_mapping this update = (mes, Ok mapping) ∧
    handleSyncUpdate this update =
      (mes ++ flat_map (dispatch_outcome this update mapping) (seqNums update),
       Ok tt) ∧
    ∀ seqNum,
      let publisherSubs := SubscriptionTable.list (publisherSubs this) (id update) in
      (∀ es err,
         dispatchUpdate this (id update) publisherSubs seqNum mapping = (es, Err err) →
         dispatch_outcome this update mapping seqNum =
           es ++ [EmitError ("dispatchUpdate(" +:+ Name_toString (id update) +:+ ", "
                               +:+ pretty seqNum +:+ "): " +:+ err)]) ∧
      (∀ es,
         dispatchUpdate this (id update) publisherSubs seqNum mapping = (es, Ok tt) →
         dispatch_outcome this update mapping seqNum = es) ∧
      (seqNum ∈ seqNums update →
       ∀ e, e ∈ dispatch_outcome this update mapping seqNum →
            e ∈ (handleSyncUpdate this update).1).
Proof.
  destruct (handleSyncUpdate_mapping_run this update) as (mes & mapping & Hm & _).
  exists mes, mapping. split; [exact Hm|].
  pose proof (handleSyncUpdate_run this update mes mapping Hm) as Hrun.
  split; [exact Hrun|]. intros seqNum publisherSubs. split_and!.
  - intros es err Hd. unfold dispatch_outcome. fold publisherSubs. by rewrite Hd.
  - intros es Hd. unfold dispatch_outcome. fold publisherSubs. by rewrite Hd.
  - intros Hin e He. rewrite Hrun. cbn [fst]. apply elem_of_app. right.
    apply list_elem_of_In, in_flat_map. exists seqNum.
    split; by apply list_elem_of_In.
Qed.

End Dispatch.

Lemma handleSyncUpdate_isolates_failures_witness :
  let this := ex_filtered_and_publisher in
  let update := mkRange ex_P 1 3 in
  let effects := (handleSyncUpdate (E := ex_env false) this update).1 in
  (handleSyncUpdate (E := ex_env false) this update).2 = Ok tt ∧
  EmitError "dispatchUpdate(/P, 2): Error: Interest rejected: expire" ∈ effects ∧
  Deliver 1 (mkUpdate ex_P 3 (ex_T ++ [comp "big"])
               (String.list_byte_of_string "state vector sync")) ∈ effects.
Proof.
  intros this update effects. subst effects.
  destruct (handleSyncUpdate_isolates_failures (E := ex_env false) this update)
    as (mes & mapping & Hm & Hrun & Hseq).
  assert (handleSyncUpdate_mapping (E := ex_env false) this update = ([], Ok None))
    as Hnone by (vm_compute; reflexivity).
  rewrite Hnone in Hm. injection Hm as <- <-.
  split; [by rewrite Hrun|]. split.
  - destruct (Hseq 2) as (Herr & _ & Hin). apply Hin.
    + apply list_elem_of_In. vm_compute. tauto.
    + erewrite Herr; [|vm_compute; reflexivity].
      apply elem_of_app. right. apply list_elem_of_singleton. vm_compute. reflexivity.
  - destruct (Hseq 3) as (_ & Hok & Hin). apply Hin.
    + apply list_elem_of_In. vm_compute. tauto.
    + erewrite Hok; [|vm_compute; reflexivity].
      apply list_elem_of_In. vm_compute. tauto.
Defined.

(** *** Filters of name-prefix subscriptions *)

(** C5 (as stated, refuted): handle 0 subscribes to prefix /T with a filter
    that rejects every mapping entry, handle 1 to publisher /P. Without
    [mustFilterByMapping] no mapping is retrieved for an update of /P and
    handle 0 receives publication 1, named /T/x. With [mustFilterByMapping]
    the mapping is retrieved, but it has no entry for publication 3, and
    handle 0 receives that one. *)
Lemma filtered_subscription_receives_update :
  let this := ex_filtered_and_publisher in
  (∃ filter, nameFilters this !! 0%nat = Some filter ∧ ∀ entry, filter entry = false) ∧
  ex_T `prefix_of` ex_T ++ [comp "x"] ∧
  Deliver 0 (mkUpdate ex_P 1 (ex_T ++ [comp "x"]) (String.list_byte_of_string "hello"))
    ∈ (handleSyncUpdate (E := ex_env false) this (mkRange ex_P 1 1)).1 ∧
  ex_T `prefix_of` ex_T ++ [comp "big"] ∧
  Deliver 0 (mkUpdate ex_P 3 (ex_T ++ [comp "big"])
               (String.list_byte_of_string "state vector sync"))
    ∈ (handleSyncUpdate (E := ex_env true) this (mkRange ex_P 3 3)).1.
Proof.
  intros this. split_and!.
  - exists (λ _, false). split; [|done]. vm_compute. reflexivity.
  - by eexists.
  - apply list_elem_of_In. vm_compute. tauto.
  - by eexists.
  - apply list_elem_of_In. vm_compute. tauto.
Qed.

Lemma elem_of_table_subscribe (table : SubscriptionTable.t) scope sub scope' sub' :
  sub' ∈ SubscriptionTable.list (SubscriptionTable.subscribe table scope sub) scope' ↔
  sub' ∈ SubscriptionTable.list table scope' ∨ (scope = scope' ∧ sub' = sub).
Proof.
  unfold SubscriptionTable.subscribe, SubscriptionTable.list at 1.
  destruct (decide (scope = scope')) as [->|Hne].
  - rewrite lookup_insert_eq. simpl. rewrite elem_of_app, list_elem_of_singleton.
    tauto.
  - rewrite lookup_insert_ne by done. fold (SubscriptionTable.list table scope').
    tauto.
Qed.

Lemma table_dimension_pos (table : SubscriptionTable.t) scope sub :
  sub ∈ SubscriptionTable.list table scope → SubscriptionTable.dimension table ≠ 0%nat.
Proof.
  unfold SubscriptionTable.list, SubscriptionTable.dimension. intros Hin Hsize.
  apply map_size_empty_iff in Hsize. subst table.
  rewrite lookup_empty in Hin. simpl in Hin. by apply elem_of_nil in Hin.
Qed.

Section Filters.
Context {MappingEntry : Type} {E : SubscriberEnv MappingEntry}.
Implicit Types (this : SvSubscriber MappingEntry) (mapping : option (Mapping MappingEntry)).

Lemma built_handles_separate this : built this → handles_separate this.
Proof.
  induction 1 as [|this topic _ (Hfresh & Hpub & Hname)].
  - split_and!.
    + intros sub [? Hs]. cbn in Hs. by rewrite lookup_empty in Hs.
    + intros sub scope Hin. unfold SubscriptionTable.list in Hin. cbn in Hin.
      rewrite lookup_empty in Hin. by apply elem_of_nil in Hin.
    + intros sub [? Hs]. cbn in Hs. by rewrite lookup_empty in Hs.
  - destruct topic as [publisher|prefix|prefix filter];
      unfold handles_separate, subscribe; cbn [snd nameSubs nameFilters publisherSubs nextSub];
      split_and!.
    + intros sub Hs. specialize (Hfresh sub Hs). lia.
    + intros sub scope [Hin|[_ ->]]%elem_of_table_subscribe.
      * destruct (Hpub sub scope Hin). split; [lia|done].
      * split; [lia|]. destruct (nameFilters this !! nextSub this) eqn:Hf; [|done].
        specialize (Hfresh (nextSub this) ltac:(by eexists)). lia.
    + done.
    + intros sub Hs. specialize (Hfresh sub Hs). lia.
    + intros sub scope Hin. destruct (Hpub sub scope Hin). split; [lia|done].
    + intros sub Hs. destruct (Hname sub Hs) as [p Hp]. exists p.
      apply elem_of_table_subscribe. by left.
    + intros sub [f Hs]. destruct (decide (nextSub this = sub)) as [<-|Hne]; [lia|].
      rewrite lookup_insert_ne in Hs by done.
      specialize (Hfresh sub ltac:(by eexists)). lia.
    + intros sub scope Hin. destruct (Hpub sub scope Hin) as [Hlt Hnone].
      split; [lia|]. rewrite lookup_insert_ne by lia. done.
    + intros sub [f Hs]. destruct (decide (nextSub this = sub)) as [<-|Hne].
      * exists prefix. apply elem_of_table_subscribe. by right.
      * rewrite lookup_insert_ne in Hs by done.
        destruct (Hname sub ltac:(by eexists)) as [p Hp]. exists p.
        apply elem_of_table_subscribe. by left.
Qed.

(** With a mapping entry at hand, [listNameSubs] leaves out the handles
    whose filter rejects the entry. *)
Lemma listNameSubs_rejects this name entry sub filter :
  nameFilters this !! sub = Some filter → filter entry = false →
  sub ∉ listNameSubs this name (Some entry).
Proof.
  intros Hfilter Hreject Hin. unfold listNameSubs in Hin.
  apply list_elem_of_In, in_flat_map in Hin as (set & _ & Hin).
  apply filter_In in Hin as [_ Hpass]. rewrite Hfilter in Hpass. congruence.
Qed.

End Filters.

Section Deliveries.
Context {MappingEntry : Type} {E : SubscriberEnv MappingEntry}.
Implicit Types (this : SvSubscriber MappingEntry) (mapping : option (Mapping MappingEntry)).

(** [decap] has no effects of its own; it fixes the captured [nameSubs]
    once: as they were, or listed for the name it found. *)
Lemma decap_run this publisherSubs seqNum mapping vars outer :
  (decap this publisherSubs seqNum mapping vars outer).1 = [] ∧
  ∀ vars' inner,
    (decap this publisherSubs seqNum mapping vars outer).2 = Ok (vars', inner) →
    ∃ name, vars'.2 = Some (match vars.2 with
                            | Some nameSubs => nameSubs
                            | None => listNameSubs this name (mapping ≫= (.!! seqNum))
                            end).
Proof.
  unfold decap. unfold_D. destruct (decodeData (content outer)) as [inner|err]; [|done].
  destruct (innerVerifier inner); [|done]. unfold D_ret.
  match goal with |- context [if ?c then _ else _] => destruct c end;
    (split; [done|]); intros vars' inner' [= <- <-]; eexists; reflexivity.
Qed.

Section Loop.
Context {V : Type} (decap : V → Data → D (V * option Data)) (keeps : V → Prop).
Hypothesis decap_quiet : ∀ vars outer, (decap vars outer).1 = [].
Hypothesis decap_keeps : ∀ vars outer vars' inner,
  keeps vars → (decap vars outer).2 = Ok (vars', inner) → keeps vars'.

Lemma retrieveSegmented_loop_quiet arrivals vars segments nSegments totalLength :
  keeps vars →
  (retrieveSegmented_loop decap arrivals vars segments nSegments totalLength).1 = [] ∧
  ∀ vars' segments' nSegments' totalLength',
    (retrieveSegmented_loop decap arrivals vars segments nSegments totalLength).2
      = Ok (vars', segments', nSegments', totalLength') →
    keeps vars'.
Proof using decap_quiet decap_keeps.
  revert vars segments nSegments totalLength.
  induction arrivals as [|outer arrivals IH];
    intros vars segments nSegments totalLength Hkeeps.
  - split; [done|]. by intros ? ? ? ? [= <- _ _ _].
  - cbn [retrieveSegmented_loop]. unfold_D.
    pose proof (decap_quiet vars outer) as Hq.
    pose proof (decap_keeps vars outer) as Hk.
    destruct (decap vars outer) as [es [[vars1 [inner|]]|err]]; simpl in Hq; subst es;
      [|done|done].
    specialize (Hk vars1 (Some inner) Hkeeps eq_refl).
    destruct (name_get (data_name inner) (-1)) as [segmentComp|]; [|done].
    unfold comp_as. destruct (comp_is segmentComp Segment); [|done]. unfold D_ret.
    specialize (IH vars1
      (js_set segments (N.to_nat (conv_parse Segment segmentComp)) (content inner))
      (S nSegments) (totalLength + length (content inner))%nat Hk).
    destruct (retrieveSegmented_loop _ _ _ _ _ _) as [es r]. simpl in *.
    destruct IH as [-> Hr]. split; [done|]. exact Hr.
Qed.

Lemma retrieveSegmented_quiet outerPrefix vars :
  keeps vars →
  (∀ sub u, Deliver sub u ∉ (retrieveSegmented outerPrefix decap vars).1) ∧
  ∀ vars' payload,
    (retrieveSegmented outerPrefix decap vars).2 = Ok (vars', payload) →
    keeps vars'.
Proof using decap_quiet decap_keeps.
  intros Hkeeps. unfold retrieveSegmented. unfold_D.
  pose proof (retrieveSegmented_loop_quiet
                (fetch_unordered (outerPrefix ++ [Version0])).1
                vars [] 0%nat 0%nat Hkeeps) as [He Hr].
  destruct (retrieveSegmented_loop _ _ _ _ _ _) as [es [[[[vars1 segments] n] t]|err]];
    simpl in He; subst es.
  - specialize (Hr _ _ _ _ eq_refl).
    destruct (fetch_unordered (outerPrefix ++ [Version0])).2 as [err|]; simpl.
    + split; [|done]. intros sub u [?|?%elem_of_nil]%elem_of_cons; done.
    + destruct (concatBuffers _ _) as [payload|err]; simpl.
      * split; [intros sub u [?|?%elem_of_nil]%elem_of_cons; done|].
        by intros ? ? [= <- _].
      * split; [|done]. intros sub u [?|?%elem_of_nil]%elem_of_cons; done.
  - simpl. split; [|done]. intros sub u [?|?%elem_of_nil]%elem_of_cons; done.
Qed.

End Loop.

End Deliveries.

Section DispatchUpdate.
Context {MappingEntry : Type} {E : SubscriberEnv MappingEntry}.
Implicit Types (this : SvSubscriber MappingEntry) (mapping : option (Mapping MappingEntry)).

Lemma deliver_in_update (set : list Sub) (update : Update) sub u :
  Deliver sub u ∈ (SubscriptionTable.update set update).1 → sub ∈ set ∧ u = update.
Proof.
  rewrite update_run. cbn [fst]. intros (sub' & [= -> ->] & Hin)%list_elem_of_fmap. done.
Qed.

(** Who receives what from the second half of [dispatchUpdate]. *)
Lemma dispatchUpdate_retrieve_deliver this publisher publisherSubs seqNum mapping
    nameSubs sub u :
  Deliver sub u ∈
    (dispatchUpdate_retrieve this publisher publisherSubs seqNum mapping nameSubs).1 →
  update_seqNum u = seqNum ∧
  (sub ∈ publisherSubs ∨
   ∃ name, sub ∈ match nameSubs with
                 | Some nameSubs => nameSubs
                 | None => listNameSubs this name (mapping ≫= (.!! seqNum))
                 end).
Proof.
  intros Hin. unfold dispatchUpdate_retrieve in Hin. cbv zeta in Hin.
  unfold mbind, D_mbind in Hin.
  apply D_bind_effects in Hin as [Hin | (_ & _ & Hin)].
  { cbn in Hin. apply list_elem_of_singleton in Hin. discriminate. }
  apply D_bind_effects in Hin as [Hin | (outer & Houter & Hin)].
  { cbn in Hin. by apply elem_of_nil in Hin. }
  apply D_bind_effects in Hin as [Hin | ([vars inner] & Hdecap & Hin)].
  { rewrite (proj1 (decap_run _ _ _ _ _ _)) in Hin. by apply elem_of_nil in Hin. }
  destruct (proj2 (decap_run _ _ _ _ _ _) vars inner Hdecap) as [name Hvars].
  cbn [snd] in Hvars.
  destruct inner as [inner|]; [|cbn in Hin; by apply elem_of_nil in Hin].
  apply D_bind_effects in Hin as [Hin | ([vars2 payload] & Hpayload & Hin)].
  { exfalso. case_bool_decide.
    - cbn in Hin. by apply elem_of_nil in Hin.
    - eapply (retrieveSegmented_quiet _ (λ v, v.2 = vars.2)); [| |done|exact Hin].
      + intros v o. apply decap_run.
      + intros v o v' i Hv Hd. apply decap_run in Hd as [n Hd].
        rewrite Hv, Hvars in Hd. by rewrite Hd, Hvars. }
  assert (vars2.2 = vars.2) as Hvars2.
  { case_bool_decide.
    - cbn in Hpayload. by injection Hpayload as <- _.
    - eapply (retrieveSegmented_quiet _ (λ v, v.2 = vars.2)); [| |done|exact Hpayload].
      + intros v o. apply decap_run.
      + intros v o v' i Hv Hd. apply decap_run in Hd as [n Hd].
        rewrite Hv, Hvars in Hd. by rewrite Hd, Hvars. }
  apply D_bind_effects in Hin as [Hin | (_ & _ & Hin)];
    apply deliver_in_update in Hin as [Hin ->]; (split; [done|]).
  - by left.
  - right. exists name. rewrite Hvars2, Hvars in Hin. exact Hin.
Qed.

(** Who receives what from [dispatchUpdate]. *)
Lemma dispatchUpdate_deliver this publisher publisherSubs seqNum mapping sub u :
  Deliver sub u ∈ (dispatchUpdate this publisher publisherSubs seqNum mapping).1 →
  update_seqNum u = seqNum ∧
  (sub ∈ publisherSubs ∨
   ∃ name, sub ∈ listNameSubs this name (mapping ≫= (.!! seqNum))).
Proof.
  unfold dispatchUpdate. destruct (length publisherSubs =? 0)%nat.
  - destruct mapping as [m|].
    + destruct (m !! seqNum) as [entry|] eqn:Hentry.
      * cbv zeta. destruct (length _ =? 0)%nat.
        -- intros Hin. cbn in Hin. by apply elem_of_nil in Hin.
        -- intros Hin. apply dispatchUpdate_retrieve_deliver in Hin as [? [?|[_ ?]]].
           ++ split; [done|by left].
           ++ split; [done|]. right. exists (entry_name entry).
              cbn. by rewrite Hentry.
      * intros Hin. cbn in Hin. by apply elem_of_nil in Hin.
    + intros Hin. by apply dispatchUpdate_retrieve_deliver in Hin.
  - intros Hin. by apply dispatchUpdate_retrieve_deliver in Hin.
Qed.

(** When [handleSyncUpdate] retrieves the mapping, it hands the mapping
    that [retrieveMapping] returned to [dispatchUpdate]. *)
Lemma handleSyncUpdate_mapping_retrieved this update :
  SubscriptionTable.dimension (nameSubs this) ≠ 0%nat →
  SubscriptionTable.list (publisherSubs this) (id update) = [] ∨
    mustFilterByMapping = true →
  ∃ mes m,
    retrieveMapping update = (mes, Ok m) ∧
    handleSyncUpdate_mapping this update = (mes, Ok (Some m)) ∧
    ∀ sub u, Deliver sub u ∉ mes.
Proof.
  intros Hdim Hcond.
  destruct (retrieveMapping_batches_quiet (id update)
              (batch mappingBatch (seqNums update)) ∅) as (es & m & Hrun & Hq).
  fold (retrieveMapping update) in Hrun.
  exists es, m. split; [exact Hrun|]. split; [|exact Hq].
  unfold handleSyncUpdate_mapping.
  assert (negb (SubscriptionTable.dimension (nameSubs this) =? 0)%nat &&
          ((length (SubscriptionTable.list (publisherSubs this) (id update)) =? 0)%nat
           || mustFilterByMapping) = true) as ->.
  { apply andb_true_iff. split.
    - apply negb_true_iff, Nat.eqb_neq. exact Hdim.
    - apply orb_true_iff. destruct Hcond as [->| ->]; [by left|by right]. }
  unfold_D. rewrite Hrun. by rewrite app_nil_r.
Qed.

(** With a publisher-scoped subscription and [mustFilterByMapping] off, no
    mapping is asked for. *)
Lemma handleSyncUpdate_mapping_skipped this update :
  SubscriptionTable.list (publisherSubs this) (id update) ≠ [] →
  mustFilterByMapping = false →
  handleSyncUpdate_mapping this update = ([], Ok None).
Proof.
  intros Hsubs Hflag. unfold handleSyncUpdate_mapping. rewrite Hflag.
  destruct (SubscriptionTable.list (publisherSubs this) (id update)); [done|].
  cbn [length Nat.eqb orb]. by rewrite andb_false_r.
Qed.

Lemma dispatch_outcome_deliver this update mapping seqNum sub u :
  Deliver sub u ∈ dispatch_outcome this update mapping seqNum →
  Deliver sub u ∈
    (dispatchUpdate this (id update)
       (SubscriptionTable.list (publisherSubs this) (id update)) seqNum mapping).1.
Proof.
  unfold dispatch_outcome.
  destruct (dispatchUpdate _ _ _ _ _) as [es [[]|err]]; [done|].
  intros [Hin|Hin]%elem_of_app; [exact Hin|].
  apply list_elem_of_singleton in Hin. discriminate.
Qed.

(** Without a publisher-scoped subscription, [dispatchUpdate] with a
    mapping delivers only to the handles listed for the mapping entry. *)
Lemma dispatchUpdate_deliver_mapped this publisher seqNum (m : Mapping MappingEntry)
    sub u :
  Deliver sub u ∈ (dispatchUpdate this publisher [] seqNum (Some m)).1 →
  ∃ entry, m !! seqNum = Some entry ∧
           sub ∈ listNameSubs this (entry_name entry) (Some entry).
Proof.
  unfold dispatchUpdate. cbn [length Nat.eqb].
  destruct (m !! seqNum) as [entry|]; [|intros Hin; by apply elem_of_nil in Hin].
  cbv zeta. destruct (length _ =? 0)%nat.
  - intros Hin. by apply elem_of_nil in Hin.
  - intros Hin. apply dispatchUpdate_retrieve_deliver in Hin as [_ [Hin|[_ Hin]]].
    + by apply elem_of_nil in Hin.
    + by exists entry.
Qed.

(** Without a mapping the filters are not looked at. *)
Lemma dispatch_outcome_without_filter this update sub seqNum :
  dispatch_outcome (without_filter sub this) update None seqNum =
  dispatch_outcome this update None seqNum.
Proof.
  unfold dispatch_outcome, dispatchUpdate.
  change (publisherSubs (without_filter sub this)) with (publisherSubs this).
  destruct (length _ =? 0)%nat; reflexivity.
Qed.

(** C5 (amended): take a subscriber built by [subscribe] calls and a
    name-prefix subscription [sub] in it whose filter rejects every mapping
    entry.
    - If no publisher-scoped subscription exists for the update's publisher,
      or [mustFilterByMapping] is set, the mapping is retrieved:
      [handleSyncUpdate] performs [retrieveMapping] and dispatches every
      sequence number with the mapping it returned; [sub] receives no update
      for a sequence number that has an entry in that mapping.
    - If no publisher-scoped subscription exists for the update's publisher,
      [sub] receives no update at all.
    - If a publisher-scoped subscription exists and [mustFilterByMapping] is
      not set, no mapping is retrieved and the filter is not evaluated: the
      update is handled exactly as for [sub] subscribed without a filter. *)
Theorem rejecting_filter_blocks_mapped_updates this (update : SyncRange) sub filter :
  built this →
  nameFilters this !! sub = Some filter →
  (∀ entry, filter entry = false) →
  let subs := SubscriptionTable.list (publisherSubs this) (id update) in
  (subs = [] ∨ mustFilterByMapping = true →
   ∃ mes m,
     retrieveMapping update = (mes, Ok m) ∧
     handleSyncUpdate this update =
       (mes ++ flat_map (dispatch_outcome this update (Some m)) (seqNums update),
        Ok tt) ∧
     ∀ u, Deliver sub u ∈ (handleSyncUpdate this update).1 →
          m !! update_seqNum u = None) ∧
  (subs = [] → ∀ u, Deliver sub u ∉ (handleSyncUpdate this update).1) ∧
  (subs ≠ [] → mustFilterByMapping = false →
   handleSyncUpdate this update =
     (flat_map (dispatch_outcome this update None) (seqNums update), Ok tt) ∧
   handleSyncUpdate (without_filter sub this) update = handleSyncUpdate this update).
Proof.
  intros Hbuilt Hfilter Hreject subs.
  destruct (built_handles_separate this Hbuilt) as (_ & Hpub & Hname).
  destruct (Hname sub ltac:(by eexists)) as [prefix Hsub].
  assert (SubscriptionTable.dimension (nameSubs this) ≠ 0%nat) as Hdim
    by (by eapply table_dimension_pos).
  split_and!.
  - intros Hcond.
    destruct (handleSyncUpdate_mapping_retrieved this update Hdim Hcond)
      as (mes & m & Hretrieve & Hm & Hquiet).
    pose proof (handleSyncUpdate_run this update mes (Some m) Hm) as Hrun.
    exists mes, m. split; [exact Hretrieve|]. split; [exact Hrun|].
    intros u Hin. rewrite Hrun in Hin. cbn [fst] in Hin.
    apply elem_of_app in Hin as [Hin|Hin]; [by apply Hquiet in Hin|].
    apply list_elem_of_In, in_flat_map in Hin as (seqNum & _ & Hin).
    apply list_elem_of_In, dispatch_outcome_deliver in Hin.
    apply dispatchUpdate_deliver in Hin as [-> [Hps|[name Hns]]].
    + apply Hpub in Hps as [_ Hnone]. congruence.
    + change (Some m ≫= (.!! seqNum)) with (m !! seqNum) in Hns.
      destruct (m !! seqNum) as [entry|]; [|done].
      exfalso. eapply listNameSubs_rejects; [exact Hfilter|apply Hreject|exact Hns].
  - intros Hnone u Hin.
    destruct (handleSyncUpdate_mapping_retrieved this update Hdim (or_introl Hnone))
      as (mes & m & _ & Hm & Hquiet).
    rewrite (handleSyncUpdate_run this update mes (Some m) Hm) in Hin.
    cbn [fst] in Hin.
    apply elem_of_app in Hin as [Hin|Hin]; [by apply Hquiet in Hin|].
    apply list_elem_of_In, in_flat_map in Hin as (seqNum & _ & Hin).
    apply list_elem_of_In, dispatch_outcome_deliver in Hin.
    fold subs in Hin. rewrite Hnone in Hin.
    apply dispatchUpdate_deliver_mapped in Hin as (entry & _ & Hns).
    eapply listNameSubs_rejects; [exact Hfilter|apply Hreject|exact Hns].
  - intros Hsome Hflag.
    pose proof (handleSyncUpdate_mapping_skipped this update Hsome Hflag) as Hm.
    rewrite (handleSyncUpdate_run this update [] None Hm).
    split; [reflexivity|].
    rewrite (handleSyncUpdate_run (without_filter sub this) update [] None
               (handleSyncUpdate_mapping_skipped (without_filter sub this) update
                  Hsome Hflag)).
    cbn [app]. f_equal. apply flat_map_ext. intros seqNum.
    apply dispatch_outcome_without_filter.
Qed.

End DispatchUpdate.

(** Handle 0, on prefix /T with a filter that rejects every entry. With the
    publisher subscription and [mustFilterByMapping] the mapping, which has
    no entry for publication 3, is retrieved and handle 0 receives
    publication 3; alone, handle 0 receives nothing of publication 1; with
    the publisher subscription and without [mustFilterByMapping] publication
    1 is handled as for a plain subscription. *)
Lemma rejecting_filter_blocks_mapped_updates_witness :
  let this := ex_filtered_and_publisher in
  let u := mkUpdate ex_P 3 (ex_T ++ [comp "big"])
             (String.list_byte_of_string "state vector sync") in
  (built this ∧
   nameFilters this !! 0%nat = Some (λ _, false) ∧
   mustFilterByMapping (SubscriberEnv := ex_env true) = true ∧
   Deliver 0 u ∈ (handleSyncUpdate (E := ex_env true) this (mkRange ex_P 3 3)).1 ∧
   ∃ m, (retrieveMapping (E := ex_env true) (mkRange ex_P 3 3)).2 = Ok m ∧
        m !! update_seqNum u = None) ∧
  (built ex_filtered ∧
   nameFilters ex_filtered !! 0%nat = Some (λ _, false) ∧
   SubscriptionTable.list (publisherSubs ex_filtered) ex_P = [] ∧
   ∀ u, Deliver 0 u ∉ (handleSyncUpdate (E := ex_env false) ex_filtered
                         (mkRange ex_P 1 1)).1) ∧
  (SubscriptionTable.list (publisherSubs this) ex_P ≠ [] ∧
   mustFilterByMapping (SubscriberEnv := ex_env false) = false ∧
   handleSyncUpdate (E := ex_env false) (without_filter 0 this) (mkRange ex_P 1 1) =
     handleSyncUpdate (E := ex_env false) this (mkRange ex_P 1 1)).
Proof.
  intros this u.
  assert (built this) as Hbuilt.
  { unfold this, ex_filtered_and_publisher. apply built_subscribe, built_subscribe, built_new. }
  assert (built ex_filtered) as Hbuilt'.
  { unfold ex_filtered. apply built_subscribe, built_new. }
  assert (nameFilters this !! 0%nat = Some (λ _, false)) as Hfilter
    by (vm_compute; reflexivity).
  assert (nameFilters ex_filtered !! 0%nat = Some (λ _, false)) as Hfilter'
    by (vm_compute; reflexivity).
  assert (SubscriptionTable.list (publisherSubs ex_filtered) ex_P = []) as Hnone
    by (vm_compute; reflexivity).
  assert (SubscriptionTable.list (publisherSubs this) ex_P ≠ []) as Hsome
    by (vm_compute; discriminate).
  split_and!.
  - exact Hbuilt.
  - exact Hfilter.
  - reflexivity.
  - apply list_elem_of_In. vm_compute. tauto.
  - destruct (rejecting_filter_blocks_mapped_updates (E := ex_env true) this
                (mkRange ex_P 3 3) 0%nat (λ _, false) Hbuilt Hfilter (λ _, eq_refl))
      as (Hmapped & _ & _).
    destruct (Hmapped (or_intror eq_refl)) as (mes & m & Hretrieve & _ & Hentry).
    exists m. split; [by rewrite Hretrieve|]. apply Hentry.
    apply list_elem_of_In. vm_compute. tauto.
  - exact Hbuilt'.
  - exact Hfilter'.
  - exact Hnone.
  - destruct (rejecting_filter_blocks_mapped_updates (E := ex_env false) ex_filtered
                (mkRange ex_P 1 1) 0%nat (λ _, false) Hbuilt' Hfilter' (λ _, eq_refl))
      as (_ & Hnothing & _).
    exact (Hnothing Hnone).
  - exact Hsome.
  - reflexivity.
  - destruct (rejecting_filter_blocks_mapped_updates (E := ex_env false) this
                (mkRange ex_P 1 1) 0%nat (λ _, false) Hbuilt Hfilter (λ _, eq_refl))
      as (_ & _ & Hplain).
    exact (proj2 (Hplain Hsome eq_refl)).
Defined.

(** ** More on the SvSync participant *)

(** X1: in steady state the timer always sends exactly one sync Interest,
    carrying the own vector; the participant stays steady with its vector
    untouched and re-arms the steady timer. *)
Theorem handleTimer_steady env s :
  aggregated s = None →
  let s' := (exec (handleTimer env) s).1 in
  let es := (exec (handleTimer env) s).2 in
  sent es = [own s] ∧
  updates es = [] ∧
  own s' = own s ∧
  aggregated s' = None ∧
  timer s' = Some (now env + steadyTimer env) ∧
  timerOps es = [ClearTimeout; SetTimeout (steadyTimer env)].
Proof.
  intros Hagg. cbv zeta.
  rewrite handleTimer_sent, handleTimer_state, handleTimer_timerOps, Hagg.
  split_and!; try reflexivity.
  unfold_methods. destruct s as [o agg t c]. simpl in Hagg. subst agg.
  destruct (maybeHaveDebugListener env); reflexivity.
Qed.

Lemma handleTimer_steady_witness :
  let s := mkSvSync {[A_id := 5]} None (Some 900) false in
  let s' := (exec (handleTimer env0) s).1 in
  let es := (exec (handleTimer env0) s).2 in
  aggregated s = None ∧
  sent es = [own s] ∧
  updates es = [] ∧
  own s' = own s ∧
  aggregated s' = None ∧
  timer s' = Some (now env0 + steadyTimer env0) ∧
  timerOps es = [ClearTimeout; SetTimeout (steadyTimer env0)].
Proof.
  intros s. split; [reflexivity|].
  exact (handleTimer_steady env0 s eq_refl).
Defined.

(** X2: a vector received in steady state is merged into own. The
    participant enters suppression, with the received vector as aggregated
    vector and the suppression delay, exactly when own is ahead of the
    received vector for some id; otherwise it stays steady and restarts the
    steady timer. No sync Interest is sent either way. *)
Theorem handleSyncInterest_in_steady env s recv :
  aggregated s = None →
  let s' := (exec (handleSyncInterest env recv) s).1 in
  let es := (exec (handleSyncInterest env recv) s).2 in
  own s' = mergeFrom (own s) recv ∧
  sent es = [] ∧
  ((∀ id, get (own s) id ≤ get recv id) →
     aggregated s' = None ∧
     timer s' = Some (now env + steadyTimer env) ∧
     timerOps es = [ClearTimeout; SetTimeout (steadyTimer env)]) ∧
  ((∃ id, get recv id < get (own s) id) →
     aggregated s' = Some recv ∧
     timer s' = Some (now env + suppressionTimer env) ∧
     timerOps es = [ClearTimeout; SetTimeout (suppressionTimer env)]).
Proof.
  intros Hagg. cbv zeta.
  rewrite handleSyncInterest_state, handleSyncInterest_timerOps,
    handleSyncInterest_sent, Hagg.
  split_and!.
  - by case_decide.
  - done.
  - intros Hle. apply (proj2 (listOlderThan_nil recv (own s))) in Hle.
    by rewrite !decide_True by done.
  - intros [i Hlt]. rewrite !decide_False; [done| |].
    all: intros Hnil; pose proof (proj1 (listOlderThan_nil _ _) Hnil i); lia.
Qed.

Lemma handleSyncInterest_in_steady_witness :
  let s := mkSvSync {[A_id := 5]} None (Some 900) false in
  aggregated s = None ∧
  own (exec (handleSyncInterest env0 {[A_id := 7]}) s).1
    = mergeFrom (own s) {[A_id := 7]}.
Proof.
  intros s. split; [reflexivity|].
  exact (proj1 (handleSyncInterest_in_steady env0 s {[A_id := 7]} eq_refl)).
Defined.

(** X3: the [update] events raised for a received vector describe exactly
    what own gained: there is an event for a range of [id] if and only if the
    own value of [id] grew, and the range runs from the old own value plus
    one to the new own value. *)
Theorem handleSyncInterest_updates_are_the_gain env s recv r :
  let s' := (exec (handleSyncInterest env recv) s).1 in
  let es := (exec (handleSyncInterest env recv) s).2 in
  r ∈ updates es ↔
  get (own s) (id r) < get (own s') (id r) ∧
  loSeqNum r = get (own s) (id r) + 1 ∧
  hiSeqNum r = get (own s') (id r).
Proof.
  cbv zeta. rewrite handleSyncInterest_updates, elem_of_listOlderThan.
  assert (own (exec (handleSyncInterest env recv) s).1 = mergeFrom (own s) recv) as ->.
  { rewrite handleSyncInterest_state. destruct (aggregated s); [done|by case_decide]. }
  rewrite get_mergeFrom. split.
  - intros (Hlt & _ & Hlo & Hhi). split_and!; [lia|done|lia].
  - intros (Hlt & Hlo & Hhi). split_and!; [lia| |done|lia].
    destruct (recv !! id r) eqn:Hr; [by eexists|].
    assert (get recv (id r) = 0) by (unfold get; by rewrite Hr). lia.
Qed.

(** X4: a received vector teaches nothing the second time: handling the same
    vector again raises no [update] event and leaves the own vector as it
    is. *)
Theorem handleSyncInterest_again env1 env2 s recv :
  let s1 := (exec (handleSyncInterest env1 recv) s).1 in
  let r2 := exec (handleSyncInterest env2 recv) s1 in
  updates r2.2 = [] ∧ own r2.1 = own s1.
Proof.
  cbv zeta. rewrite handleSyncInterest_updates.
  assert (∀ env s, own (exec (handleSyncInterest env recv) s).1
                   = mergeFrom (own s) recv) as Hown.
  { intros env s0. rewrite handleSyncInterest_state.
    destruct (aggregated s0); [done|by case_decide]. }
  rewrite !Hown. split.
  - apply listOlderThan_nil. intros i. rewrite get_mergeFrom. lia.
  - apply map_eq. intros i. rewrite !lookup_mergeFrom. unfold get.
    rewrite lookup_mergeFrom. unfold get.
    destruct (own s !! i), (recv !! i); simpl; f_equal; lia.
Qed.

(** X5: whatever happens (publish, received Interest, timer, close), no entry
    of the own vector ever decreases. *)
Theorem own_never_decreases env i s id :
  get (own s) id ≤ get (own (exec (handle env i) s).1) id.
Proof.
  destruct i as [pid n|recv| |]; simpl handle.
  - rewrite set_seqNum_state. case_decide as Hn; [done|]. simpl.
    destruct (decide (pid = id)) as [->|Hne].
    + rewrite get_set_eq. lia.
    + by rewrite get_set_ne.
  - rewrite handleSyncInterest_state.
    destruct (aggregated s); [|case_decide]; simpl; rewrite get_mergeFrom; lia.
  - by rewrite handleTimer_state.
  - done.
Qed.

Lemma reachable_covers s : reachable s → own_covers_aggregated s.
Proof.
  induction 1 as [|s env i _ IH _].
  - apply own_covers_aggregated_initial.
  - by apply own_covers_aggregated_step.
Qed.

(** X6: a local publication is broadcast by the next timer firing, in steady
    and in suppression state alike: in a reachable state, after
    [node.seqNum = n] with [n] above the current value the timer is due at
    once, and when it fires exactly one sync Interest is sent, carrying the
    own vector with the node's entry at [n]. *)
Theorem publish_is_broadcast env1 env2 s id n :
  reachable s →
  (Z.of_N (get (own s) id) < n)%Z →
  let s1 := (exec (set_seqNum env1 id n) s).1 in
  timer s1 = Some (now env1 + 0) ∧
  get (own s1) id = Z.to_N n ∧
  sent (exec (handleTimer env2) s1).2 = [own s1].
Proof.
  intros Hreach Hlt. cbv zeta.
  rewrite handleTimer_sent, set_seqNum_state. rewrite decide_False by lia.
  cbn [own aggregated timer]. rewrite get_set_eq. split_and!; try done.
  destruct (aggregated s) as [agg|] eqn:Hagg; [|done].
  rewrite decide_False; [done|].
  intros Hnil. pose proof (proj1 (listOlderThan_nil _ _) Hnil id) as Hle.
  rewrite get_set_eq in Hle.
  pose proof (reachable_covers s Hreach agg Hagg id). lia.
Qed.

Lemma publish_is_broadcast_witness :
  let s1 := (exec (set_seqNum env0 A_id 6) run_publish_recv).1 in
  reachable run_publish_recv ∧
  (Z.of_N (get (own run_publish_recv) A_id) < 6)%Z ∧
  timer s1 = Some (now env0 + 0) ∧
  get (own s1) A_id = Z.to_N 6 ∧
  sent (exec (handleTimer env0) s1).2 = [own s1].
Proof.
  intros s1.
  assert (reachable run_publish_recv) as Hreach.
  { unfold run_publish_recv. apply reachable_step.
    - apply reachable_step; [apply reachable_initial|exact I].
    - vm_compute. reflexivity. }
  assert (Z.of_N (get (own run_publish_recv) A_id) < 6)%Z as Hlt
    by (vm_compute; reflexivity).
  split; [exact Hreach|]. split; [exact Hlt|].
  exact (publish_is_broadcast env0 env0 run_publish_recv A_id 6 Hreach Hlt).
Defined.

Lemma listOlderThan_ids_sublist (this other : StateVector) :
  (id <$> listOlderThan this other) `sublist_of` (map_to_list other).*1.
Proof.
  unfold listOlderThan. induction (map_to_list other) as [|[i n] l IH]; [done|].
  cbn. destruct (get this i <? n); cbn.
  - by apply sublist_skip.
  - by apply sublist_cons.
Qed.

(** X7: a received vector raises at most one [update] event per publisher:
    the ids of the events are pairwise distinct. *)
Theorem handleSyncInterest_one_update_per_id env s recv :
  NoDup (id <$> updates (exec (handleSyncInterest env recv) s).2).
Proof.
  rewrite handleSyncInterest_updates.
  eapply sublist_NoDup; [|apply listOlderThan_ids_sublist].
  apply NoDup_fst_map_to_list.
Qed.

(** X8: attaching a [debug] listener changes nothing but the [debug] events:
    for every input the state reached and all other effects are the same
    with and without the listener. *)
Theorem debug_listener_is_transparent env b i s :
  (exec (handle (with_debug_listener b env) i) s).1 = (exec (handle env i) s).1 ∧
  withoutDebug (exec (handle (with_debug_listener b env) i) s).2
    = withoutDebug (exec (handle env i) s).2.
Proof.
  destruct env as [n st su f], s as [o agg t c]. unfold with_debug_listener. cbn [now steadyTimer suppressionTimer].
  destruct i as [pid m|recv| |]; simpl handle.
  - unfold_methods. cbn.
    destruct (m <=? Z.of_N (get o pid))%Z; [done|]. by destruct b, f.
  - unfold_methods. destruct b, f, agg as [a|]; cbn; rewrite !for_each_emit; cbn;
      try destruct (listOlderThan recv o); cbn; done.
  - unfold_methods. destruct b, f, agg as [a|]; cbn;
      try destruct (listOlderThan a o); cbn; done.
  - done.
Qed.

(** X9: a handler never leaves two timeouts pending. Each input either
    leaves the timer alone, or clears it (close), or clears it and arms
    exactly one new timeout, whose deadline the participant then holds. *)
Theorem one_timer_at_a_time env i s :
  let s' := (exec (handle env i) s).1 in
  let es := (exec (handle env i) s).2 in
  (timerOps es = [] ∧ timer s' = timer s) ∨
  (timerOps es = [ClearTimeout] ∧ timer s' = None) ∨
  (∃ delay, timerOps es = [ClearTimeout; SetTimeout delay] ∧
            timer s' = Some (now env + delay)).
Proof.
  cbv zeta. destruct i as [pid n|recv| |]; simpl handle.
  - destruct (Z.le_gt_cases n (Z.of_N (get (own s) pid))) as [Hle|Hgt].
    + left. unfold exec. by rewrite set_seqNum_noop.
    + right. right. exists 0.
      rewrite set_seqNum_timerOps, set_seqNum_state by lia.
      by rewrite decide_False by lia.
  - rewrite handleSyncInterest_timerOps, handleSyncInterest_state.
    destruct (aggregated s); [by left|].
    right. right. case_decide; eexists; done.
  - right. right. exists (steadyTimer env).
    by rewrite handleTimer_timerOps, handleTimer_state.
  - right. left. done.
Qed.

(** ** More on the subscriber *)

Section NameSubs.
Context {MappingEntry : Type} {E : SubscriberEnv MappingEntry}.
Implicit Types (this : SvSubscriber MappingEntry) (mapping : option (Mapping MappingEntry)).

Lemma elem_of_lpm {Entry} (name : Name) (get : Name → option Entry) entry :
  entry ∈ lpm name get ↔ ∃ prefix, prefix `prefix_of` name ∧ get prefix = Some entry.
Proof.
  unfold lpm. rewrite list_elem_of_omap. split.
  - intros (n & _ & Hget). exists (take n name). split; [apply prefix_take|done].
  - intros (prefix & [k ->] & Hget). exists (length prefix). split.
    + apply elem_of_reverse, elem_of_seq. rewrite length_app. lia.
    + by rewrite take_app_length.
Qed.

(** X10: [listNameSubs] lists a handle exactly when it is subscribed to a
    prefix of the name (the name itself included) and, if a mapping entry is
    given and the handle has a filter, the filter accepts the entry. Without
    a mapping entry filters play no part. *)
Theorem listNameSubs_spec this name entry sub :
  sub ∈ listNameSubs this name entry ↔
  ∃ prefix,
    prefix `prefix_of` name ∧
    sub ∈ SubscriptionTable.list (nameSubs this) prefix ∧
    match entry, nameFilters this !! sub with
    | Some entry, Some filter => filter entry = true
    | _, _ => True
    end.
Proof.
  unfold listNameSubs. rewrite list_elem_of_In, in_flat_map. split.
  - intros (set & Hset & Hin). apply list_elem_of_In, elem_of_lpm in Hset
      as (prefix & Hprefix & [= <-]).
    exists prefix. split; [done|]. destruct entry as [entry|].
    + apply filter_In in Hin as [Hin Hpass]. split; [by apply list_elem_of_In|].
      by destruct (nameFilters this !! sub).
    + split; [by apply list_elem_of_In|done].
  - intros (prefix & Hprefix & Hin & Hpass).
    exists (SubscriptionTable.list (nameSubs this) prefix). split.
    + apply list_elem_of_In, elem_of_lpm. by exists prefix.
    + destruct entry as [entry|]; [|by apply list_elem_of_In].
      apply filter_In. split; [by apply list_elem_of_In|].
      by destruct (nameFilters this !! sub).
Qed.

End NameSubs.

Section DispatchExtras.
Context {MappingEntry : Type} {E : SubscriberEnv MappingEntry}.
Implicit Types (this : SvSubscriber MappingEntry) (mapping : option (Mapping MappingEntry)).

(** X11: nothing is fetched for a publication nobody wants. Without a
    publisher-scoped subscription and with the mapping at hand,
    [dispatchUpdate] does nothing at all (no Interest, no delivery, no error)
    when the mapping has no entry for the sequence number or no name
    subscription accepts the entry. *)
Theorem dispatchUpdate_skips_unwanted this publisher seqNum (m : Mapping MappingEntry) :
  match m !! seqNum with
  | None => True
  | Some entry => listNameSubs this (entry_name entry) (Some entry) = []
  end →
  dispatchUpdate this publisher [] seqNum (Some m) = ([], Ok tt).
Proof.
  intros Hunwanted. unfold dispatchUpdate. cbn [length Nat.eqb].
  destruct (m !! seqNum) as [entry|]; [|done].
  cbv zeta. by rewrite Hunwanted.
Qed.

(** The first [decap] of a [dispatchUpdate] that starts without name
    subscriptions at hand. *)
Lemma decap_first this publisherSubs seqNum mapping outer inner :
  decodeData (content outer) = Ok inner →
  innerVerifier inner = true →
  let name := topic_name (data_name inner) in
  let nameSubs := listNameSubs this name (mapping ≫= (.!! seqNum)) in
  decap this publisherSubs seqNum mapping (None, None) outer =
    ([], Ok ((Some name, Some nameSubs),
             if (length nameSubs =? 0)%nat && (length publisherSubs =? 0)%nat
             then None else Some inner)).
Proof.
  intros Hdecode Hverify name nameSubs. subst nameSubs name. unfold decap.
  rewrite Hdecode. unfold mbind, D_mbind, lift, D_bind. rewrite Hverify.
  cbn [fst snd mret D_mret D_ret]. fold (topic_name (data_name inner)).
  by destruct (_ && _).
Qed.

(** X12: a publication that fits one packet. When a publisher-scoped
    subscription exists or no mapping was retrieved, the outer Data carries
    exactly the requested name, and its content decodes to an inner Data
    that verifies, then [dispatchUpdate] sends the one Interest and delivers
    one update, first to every publisher-scoped handle and then to every
    name handle listed for the topic name; the update carries the publisher,
    the sequence number, the topic name and the inner content. *)
Theorem dispatchUpdate_single_packet this publisher publisherSubs seqNum mapping
    outer inner :
  publisherSubs ≠ [] ∨ mapping = None →
  endpoint_consume (outerInterest publisher seqNum) = Ok outer →
  data_name outer = interest_name (outerInterest publisher seqNum) →
  decodeData (content outer) = Ok inner →
  innerVerifier inner = true →
  let name := topic_name (data_name inner) in
  let update := mkUpdate publisher seqNum name (content inner) in
  dispatchUpdate this publisher publisherSubs seqNum mapping =
    (SendInterest (outerInterest publisher seqNum)
       :: ((λ sub, Deliver sub update) <$> publisherSubs)
       ++ ((λ sub, Deliver sub update) <$>
             listNameSubs this name (mapping ≫= (.!! seqNum))),
     Ok tt).
Proof.
  intros Hbranch Hconsume Hname Hdecode Hverify name update.
  unfold dispatchUpdate.
  assert ((if (length publisherSubs =? 0)%nat then mapping else None) = None) as ->.
  { destruct Hbranch as [Hne| ->]; [|by destruct (_ =? _)%nat].
    by destruct publisherSubs. }
  unfold dispatchUpdate_retrieve. cbv zeta. fold (outerInterest publisher seqNum).
  set (ns := listNameSubs this name (mapping ≫= (.!! seqNum))).
  unfold mbind, D_mbind, perform, lift, D_bind at 1 2.
  rewrite Hconsume. cbn [app]. unfold D_bind at 1.
  rewrite (decap_first this publisherSubs seqNum mapping outer inner Hdecode Hverify).
  cbv zeta. fold name. fold ns.
  destruct (length ns =? 0)%nat eqn:Hns;
    destruct (length publisherSubs =? 0)%nat eqn:Hps; cbn [andb].
  - apply Nat.eqb_eq, nil_length_inv in Hns, Hps. rewrite Hns, Hps. reflexivity.
  - rewrite bool_decide_true by exact Hname. unfold mret, D_mret, D_ret, D_bind.
    cbn [fst snd default app]. rewrite !update_run. cbn [app fst snd]. reflexivity.
  - rewrite bool_decide_true by exact Hname. unfold mret, D_mret, D_ret, D_bind.
    cbn [fst snd default app]. rewrite !update_run. cbn [app fst snd]. reflexivity.
  - rewrite bool_decide_true by exact Hname. unfold mret, D_mret, D_ret, D_bind.
    cbn [fst snd default app]. rewrite !update_run. cbn [app fst snd]. reflexivity.
Qed.

(** The second half of [dispatchUpdate] when the outer Data cannot be had
    or its content is not an inner Data that verifies. *)
Lemma dispatchUpdate_retrieve_fails this publisher publisherSubs seqNum mapping nameSubs :
  (∀ outer inner,
     endpoint_consume (outerInterest publisher seqNum) = Ok outer →
     decodeData (content outer) = Ok inner → innerVerifier inner = false) →
  ∃ err, dispatchUpdate_retrieve this publisher publisherSubs seqNum mapping nameSubs =
           ([SendInterest (outerInterest publisher seqNum)], Err err).
Proof.
  intros Hbad. unfold dispatchUpdate_retrieve. cbv zeta.
  fold (outerInterest publisher seqNum).
  unfold mbind, D_mbind, perform, lift, D_bind at 1 2.
  destruct (endpoint_consume (outerInterest publisher seqNum)) as [outer|err] eqn:Hc;
    [|by eexists].
  unfold D_bind at 1. unfold decap. unfold mbind, D_mbind, lift, D_bind at 1.
  destruct (decodeData (content outer)) as [inner|err] eqn:Hd; [|by eexists].
  rewrite (Hbad outer inner eq_refl Hd). by eexists.
Qed.

(** X13: no partial dispatch. If the outer Data cannot be retrieved, or its
    content does not decode to an inner Data, or the inner Data does not
    verify, [dispatchUpdate] delivers to nobody and starts no segmented
    fetch: either it did nothing, or it sent the one Interest and threw. *)
Theorem dispatchUpdate_failure_delivers_nothing this publisher publisherSubs seqNum mapping :
  (∀ outer inner,
     endpoint_consume (outerInterest publisher seqNum) = Ok outer →
     decodeData (content outer) = Ok inner → innerVerifier inner = false) →
  dispatchUpdate this publisher publisherSubs seqNum mapping = ([], Ok tt) ∨
  ∃ err, dispatchUpdate this publisher publisherSubs seqNum mapping =
           ([SendInterest (outerInterest publisher seqNum)], Err err).
Proof.
  intros Hbad. unfold dispatchUpdate.
  destruct (if (length publisherSubs =? 0)%nat then mapping else None) as [m|].
  - destruct (m !! seqNum) as [entry|]; [|by left]. cbv zeta.
    destruct (length _ =? 0)%nat; [by left|].
    right. by apply dispatchUpdate_retrieve_fails.
  - right. by apply dispatchUpdate_retrieve_fails.
Qed.

End DispatchExtras.

Lemma dispatchUpdate_skips_unwanted_witness :
  match ex_mapping !! 1 with
  | None => True
  | Some entry => listNameSubs ex_filtered (ex_name entry) (Some entry) = []
  end ∧
  dispatchUpdate (E := ex_env false) ex_filtered ex_P [] 1 (Some ex_mapping) = ([], Ok tt).
Proof.
  assert (match ex_mapping !! 1 with
          | None => True
          | Some entry => listNameSubs ex_filtered (ex_name entry) (Some entry) = []
          end) as Hunwanted by (vm_compute; reflexivity).
  split; [exact Hunwanted|].
  exact (dispatchUpdate_skips_unwanted (E := ex_env false) ex_filtered ex_P 1
           ex_mapping Hunwanted).
Defined.

Lemma dispatchUpdate_single_packet_witness :
  let outer := mkData (ex_outerPrefix 1) (Byte.x01 :: String.list_byte_of_string "hello") in
  let inner := mkData (ex_T ++ [comp "x"]) (String.list_byte_of_string "hello") in
  let update := mkUpdate ex_P 1 (ex_T ++ [comp "x"]) (String.list_byte_of_string "hello") in
  ex_consume (outerInterest (E := ex_env false) ex_P 1) = Ok outer ∧
  ex_decodeData (content outer) = Ok inner ∧
  dispatchUpdate (E := ex_env false) ex_filtered_and_publisher ex_P [1%nat] 1 None =
    ([SendInterest (outerInterest (E := ex_env false) ex_P 1);
      Deliver 1 update; Deliver 0 update], Ok tt).
Proof.
  intros outer inner update.
  assert (ex_consume (outerInterest (E := ex_env false) ex_P 1) = Ok outer) as Hconsume
    by reflexivity.
  assert (ex_decodeData (content outer) = Ok inner) as Hdecode by reflexivity.
  split; [exact Hconsume|]. split; [exact Hdecode|].
  rewrite (dispatchUpdate_single_packet (E := ex_env false) ex_filtered_and_publisher
             ex_P [1%nat] 1 None outer inner
             (or_intror eq_refl) Hconsume eq_refl Hdecode eq_refl).
  vm_compute. reflexivity.
Defined.

Lemma dispatchUpdate_failure_delivers_nothing_witness :
  (∀ outer inner,
     ex_consume (outerInterest (E := ex_env false) ex_P 2) = Ok outer →
     ex_decodeData (content outer) = Ok inner → true = false) ∧
  (dispatchUpdate (E := ex_env false) ex_filtered_and_publisher ex_P [1%nat] 2 None
     = ([], Ok tt) ∨
   ∃ err, dispatchUpdate (E := ex_env false) ex_filtered_and_publisher ex_P [1%nat] 2 None
          = ([SendInterest (outerInterest (E := ex_env false) ex_P 2)], Err err)).
Proof.
  assert (∀ outer inner,
            ex_consume (outerInterest (E := ex_env false) ex_P 2) = Ok outer →
            ex_decodeData (content outer) = Ok inner → true = false) as Hbad.
  { intros outer inner Hc. vm_compute in Hc. discriminate. }
  split; [exact Hbad|].
  exact (dispatchUpdate_failure_delivers_nothing (E := ex_env false)
           ex_filtered_and_publisher ex_P [1%nat] 2 None Hbad).
Defined.

(** ** More on mapping retrieval and [handleSyncUpdate] *)

Section MappingExtras.
Context {MappingEntry : Type} {E : SubscriberEnv MappingEntry}.
Implicit Types (this : SvSubscriber MappingEntry) (mapping : option (Mapping MappingEntry)).

Lemma retrieveMapping_batches_all_fail id (err : N → N → string) batches
    (m : Mapping MappingEntry) :
  (∀ lo hi, endpoint_consume (mkInterest (mappingInterestName id lo hi) false)
            = Err (err lo hi)) →
  retrieveMapping_batches id batches m =
    (flat_map (λ range,
        let lo := hd 0 range in
        let hi := List.last range 0 in
        [SendInterest (mkInterest (mappingInterestName id lo hi) false);
         EmitError (retrieveMapping_error id lo hi (err lo hi))]) batches,
     Ok m).
Proof.
  intros Hfail. induction batches as [|range batches IH]; [done|].
  cbn [retrieveMapping_batches flat_map]. cbv zeta. rewrite Hfail.
  unfold mbind, D_mbind, perform, D_bind. rewrite IH. reflexivity.
Qed.

(** X14: when every mapping Interest of an update fails, [retrieveMapping]
    still completes: it returns an empty mapping, having sent one Interest
    per batch and emitted, after each, one error whose message names the
    publisher and the batch's first and last sequence number. *)
Theorem retrieveMapping_all_fail (update : SyncRange) (err : N → N → string) :
  (∀ lo hi, endpoint_consume (mkInterest (mappingInterestName (id update) lo hi) false)
            = Err (err lo hi)) →
  retrieveMapping update =
    (flat_map (λ '(lo, hi),
        [SendInterest (mkInterest (mappingInterestName (id update) lo hi) false);
         EmitError ("retrieveMapping(" +:+ Name_toString (id update) +:+ ","
                      +:+ pretty lo +:+ ".." +:+ pretty hi +:+ "): " +:+ err lo hi)])
       (mappingRanges mappingBatch update),
     Ok ∅).
Proof.
  intros Hfail. unfold retrieveMapping, mappingRanges.
  rewrite (retrieveMapping_batches_all_fail _ err _ _ Hfail). f_equal.
  unfold retrieveMapping_error.
  induction (batch mappingBatch (seqNums update)) as [|range batches IH]; [done|].
  rewrite fmap_cons. cbn [flat_map app]. cbv zeta in IH |- *. by rewrite IH.
Qed.

(** X15: for an update whose publisher has no publisher-scoped subscription,
    name subscribers depend on the mapping: if every mapping Interest fails,
    [handleSyncUpdate] does what the mapping retrieval does and nothing
    more; it requests no payload and delivers nothing. *)
Theorem handleSyncUpdate_without_mapping this (update : SyncRange) (err : N → N → string) :
  SubscriptionTable.dimension (nameSubs this) ≠ 0%nat →
  SubscriptionTable.list (publisherSubs this) (id update) = [] →
  (∀ lo hi, endpoint_consume (mkInterest (mappingInterestName (id update) lo hi) false)
            = Err (err lo hi)) →
  handleSyncUpdate this update = ((retrieveMapping update).1, Ok tt) ∧
  ∀ sub u, Deliver sub u ∉ (handleSyncUpdate this update).1.
Proof.
  intros Hdim Hpubs Hfail.
  pose proof (retrieveMapping_batches_all_fail (id update) err
                (batch mappingBatch (seqNums update)) ∅ Hfail) as Hretrieve.
  fold (retrieveMapping update) in Hretrieve.
  assert (handleSyncUpdate_mapping this update = ((retrieveMapping update).1, Ok (Some ∅)))
    as Hm.
  { unfold handleSyncUpdate_mapping. rewrite Hpubs. cbn [length Nat.eqb orb].
    apply Nat.eqb_neq in Hdim. rewrite Hdim. cbn [negb andb].
    unfold mbind, D_mbind, D_bind. rewrite Hretrieve. cbn. by rewrite app_nil_r. }
  assert (handleSyncUpdate this update = ((retrieveMapping update).1, Ok tt)) as Hrun.
  { rewrite (handleSyncUpdate_run this update _ _ Hm). f_equal.
    rewrite <- (app_nil_r (retrieveMapping update).1) at 2. f_equal.
    generalize (seqNums update). intros l.
    induction l as [|seqNum l IH]; [done|].
    cbn [flat_map]. rewrite IH, app_nil_r. unfold dispatch_outcome. rewrite Hpubs.
    unfold dispatchUpdate. cbn [length Nat.eqb]. by rewrite lookup_empty. }
  split; [exact Hrun|]. intros sub u. rewrite Hrun, Hretrieve. cbn [fst].
  intros Hin. apply list_elem_of_In, in_flat_map in Hin as (range & _ & Hin).
  destruct Hin as [Hin|[Hin|[]]]; discriminate.
Qed.

(** X16: the mapping is asked for only when it can matter. With no name
    subscription at all, or with a publisher-scoped subscription for the
    update's publisher and [mustFilterByMapping] off, [handleSyncUpdate]
    sends no mapping Interest: its effects are those of the sequence
    numbers' own dispatch, run without a mapping. *)
Theorem handleSyncUpdate_skips_mapping this (update : SyncRange) :
  SubscriptionTable.dimension (nameSubs this) = 0%nat ∨
    (SubscriptionTable.list (publisherSubs this) (id update) ≠ [] ∧
     mustFilterByMapping = false) →
  handleSyncUpdate this update =
    (flat_map (dispatch_outcome this update None) (seqNums update), Ok tt).
Proof.
  intros Hskip.
  assert (handleSyncUpdate_mapping this update = ([], Ok None)) as Hm.
  { unfold handleSyncUpdate_mapping. destruct Hskip as [->|[Hne ->]]; [done|].
    destruct (SubscriptionTable.list (publisherSubs this) (id update)); [done|].
    cbn. by rewrite andb_false_r. }
  by rewrite (handleSyncUpdate_run this update _ _ Hm).
Qed.

(** X17: an update with an empty range (the last sequence number below the
    first) is a no-op: nothing is sent, delivered or reported. *)
Theorem handleSyncUpdate_empty_range this (update : SyncRange) :
  hiSeqNum update < loSeqNum update →
  handleSyncUpdate this update = ([], Ok tt).
Proof.
  intros Hlt.
  assert (seqNums update = []) as Hnil.
  { unfold seqNums. replace (N.to_nat _) with 0%nat by lia. done. }
  assert (∃ mapping, handleSyncUpdate_mapping this update = ([], Ok mapping))
    as [mapping Hm].
  { unfold handleSyncUpdate_mapping, retrieveMapping. rewrite Hnil. cbn.
    destruct (_ && _); by eexists. }
  rewrite (handleSyncUpdate_run this update _ _ Hm). by rewrite Hnil.
Qed.

End MappingExtras.

Lemma retrieveMapping_all_fail_witness :
  let update := mkRange ex_P 1 25 in
  let err : N → N → string := λ _ _, "Error: Interest rejected: expire" in
  (∀ lo hi, ex_env_down.(endpoint_consume)
              (mkInterest (mappingInterestName (E := ex_env_down) ex_P lo hi) false)
            = Err (err lo hi)) ∧
  (retrieveMapping (E := ex_env_down) update).2 = Ok ∅ ∧
  sentInterests (retrieveMapping (E := ex_env_down) update).1 =
    (λ '(lo, hi), mkInterest (mappingInterestName (E := ex_env_down) ex_P lo hi) false)
    <$> [(1, 10); (11, 20); (21, 25)].
Proof.
  intros update err.
  assert (∀ lo hi, ex_env_down.(endpoint_consume)
                     (mkInterest (mappingInterestName (E := ex_env_down) ex_P lo hi) false)
                   = Err (err lo hi)) as Hfail by reflexivity.
  split; [exact Hfail|].
  rewrite (retrieveMapping_all_fail (E := ex_env_down) update err Hfail).
  split; reflexivity.
Defined.

Lemma handleSyncUpdate_without_mapping_witness :
  let update := mkRange ex_P 1 25 in
  SubscriptionTable.dimension (nameSubs ex_filtered) ≠ 0%nat ∧
  SubscriptionTable.list (publisherSubs ex_filtered) ex_P = [] ∧
  handleSyncUpdate (E := ex_env_down) ex_filtered update =
    ((retrieveMapping (E := ex_env_down) update).1, Ok tt).
Proof.
  intros update.
  assert (SubscriptionTable.dimension (nameSubs ex_filtered) ≠ 0%nat) as Hdim
    by (vm_compute; discriminate).
  assert (SubscriptionTable.list (publisherSubs ex_filtered) (id update) = []) as Hpubs
    by (vm_compute; reflexivity).
  split; [exact Hdim|]. split; [exact Hpubs|].
  exact (proj1 (handleSyncUpdate_without_mapping (E := ex_env_down) ex_filtered update
                  (λ _ _, "Error: Interest rejected: expire") Hdim Hpubs
                  (λ _ _, eq_refl))).
Defined.

Lemma handleSyncUpdate_skips_mapping_witness :
  let update := mkRange ex_P 1 1 in
  (SubscriptionTable.list (publisherSubs ex_filtered_and_publisher) (id update) ≠ [] ∧
   mustFilterByMapping (SubscriberEnv := ex_env false) = false) ∧
  handleSyncUpdate (E := ex_env false) ex_filtered_and_publisher update =
    (flat_map (dispatch_outcome (E := ex_env false) ex_filtered_and_publisher update None)
       (seqNums update), Ok tt).
Proof.
  intros update.
  assert (SubscriptionTable.list (publisherSubs ex_filtered_and_publisher) (id update) ≠ [] ∧
          mustFilterByMapping (SubscriberEnv := ex_env false) = false) as Hskip.
  { split; [vm_compute; discriminate|reflexivity]. }
  split; [exact Hskip|].
  exact (handleSyncUpdate_skips_mapping (E := ex_env false) ex_filtered_and_publisher
           update (or_intror Hskip)).
Defined.

Lemma handleSyncUpdate_empty_range_witness :
  hiSeqNum (mkRange ex_P 5 4) < loSeqNum (mkRange ex_P 5 4) ∧
  handleSyncUpdate (E := ex_env false) ex_filtered_and_publisher (mkRange ex_P 5 4)
    = ([], Ok tt).
Proof.
  assert (hiSeqNum (mkRange ex_P 5 4) < loSeqNum (mkRange ex_P 5 4)) as Hlt
    by (vm_compute; reflexivity).
  split; [exact Hlt|].
  exact (handleSyncUpdate_empty_range (E := ex_env false) ex_filtered_and_publisher
           (mkRange ex_P 5 4) Hlt).
Defined.

(** ** More on segmented retrieval *)




Section SegmentExtras.
Context {MappingEntry : Type} {E : SubscriberEnv MappingEntry}.
Context {V : Type} (decap : V → Data → D (V * option Data)) (vars : V).



(** X19: if the segment stream ends with an error, [retrieveSegmented]
    throws, whatever arrived before; no payload is returned. *)
Theorem retrieveSegmented_stream_error outerPrefix err :
  (fetch_unordered (outerPrefix ++ [Version0])).2 = Some err →
  ∃ err', (retrieveSegmented outerPrefix decap vars).2 = Err err'.
Proof using Type.
  intros Hfetch. unfold retrieveSegmented. unfold_D. rewrite Hfetch.
  destruct (retrieveSegmented_loop _ _ _ _ _ _) as [es [[[[v segs] n] t]|e]];
    by eexists.
Qed.

End SegmentExtras.


Lemma retrieveSegmented_stream_error_witness :
  let decap := decap (E := ex_env_down) ex_publisher [0%nat] 3 None in
  let vars := (Some (ex_T ++ [comp "big"]), Some []) in
  (fetch_unordered (SubscriberEnv := ex_env_down) (ex_outerPrefix 3 ++ [ex_Version0])).2
    = Some "Error: fetch failed" ∧
  ∃ err, (retrieveSegmented (E := ex_env_down) (ex_outerPrefix 3) decap vars).2 = Err err.
Proof.
  intros decap vars. split; [reflexivity|].
  exact (retrieveSegmented_stream_error (E := ex_env_down) decap vars (ex_outerPrefix 3)
           "Error: fetch failed" eq_refl).
Defined.

(** ** More on subscriptions *)

Section SubscribeExtras.
Context {MappingEntry : Type} {E : SubscriberEnv MappingEntry}.
Implicit Types (this : SvSubscriber MappingEntry) (mapping : option (Mapping MappingEntry)).

Lemma built_handles_below this : built this → handles_below this.
Proof.
  induction 1 as [|this topic _ [Hname Hpub]].
  - split; intros sub scope Hin; unfold SubscriptionTable.list in Hin; cbn in Hin;
      rewrite lookup_empty in Hin; by apply elem_of_nil in Hin.
  - destruct topic as [publisher|prefix|prefix filter];
      unfold handles_below, subscribe;
      cbn [snd nameSubs nameFilters publisherSubs nextSub]; split;
      intros sub scope Hin;
      try (apply elem_of_table_subscribe in Hin as [Hin|[_ ->]]; [|lia]).
    all: first [specialize (Hname sub scope Hin)|specialize (Hpub sub scope Hin)]; lia.
Qed.

(** X20: [subscribe] hands out a handle that was in no table and had no
    filter before; afterwards the handle is filed under the scope asked for,
    a filter is attached exactly for a filtered prefix subscription, and every
    handle filed before is still filed where it was. *)
Theorem subscribe_fresh_and_listed this topic :
  built this →
  let sub := (subscribe topic this).1 in
  let this' := (subscribe topic this).2 in
  (∀ scope, sub ∉ SubscriptionTable.list (nameSubs this) scope) ∧
  (∀ scope, sub ∉ SubscriptionTable.list (publisherSubs this) scope) ∧
  nameFilters this !! sub = None ∧
  sub ∈ listed topic this' ∧
  nameFilters this' !! sub =
    match topic with SubscribePrefixFilter _ filter => Some filter | _ => None end ∧
  (∀ old scope, old ∈ SubscriptionTable.list (nameSubs this) scope →
                old ∈ SubscriptionTable.list (nameSubs this') scope) ∧
  (∀ old scope, old ∈ SubscriptionTable.list (publisherSubs this) scope →
                old ∈ SubscriptionTable.list (publisherSubs this') scope).
Proof.
  intros Hbuilt.
  destruct (built_handles_below this Hbuilt) as [Hname Hpub].
  destruct (built_handles_separate this Hbuilt) as (Hfilter & _ & _).
  assert (nameFilters this !! nextSub this = None) as Hnofilter.
  { destruct (nameFilters this !! nextSub this) eqn:Hf; [|done].
    specialize (Hfilter (nextSub this) ltac:(by eexists)). lia. }
  cbv zeta. split_and!.
  - destruct topic; cbn; intros scope Hin; specialize (Hname _ _ Hin); lia.
  - destruct topic; cbn; intros scope Hin; specialize (Hpub _ _ Hin); lia.
  - by destruct topic.
  - destruct topic; unfold listed, subscribe;
      cbn [fst snd nameSubs nameFilters publisherSubs nextSub];
      apply elem_of_table_subscribe; by right.
  - destruct topic; unfold subscribe;
      cbn [fst snd nameSubs nameFilters publisherSubs nextSub]; try done.
    by rewrite lookup_insert_eq.
  - intros old scope Hin. destruct topic; unfold subscribe;
      cbn [fst snd nameSubs nameFilters publisherSubs nextSub]; try done;
      apply elem_of_table_subscribe; by left.
  - intros old scope Hin. destruct topic; unfold subscribe;
      cbn [fst snd nameSubs nameFilters publisherSubs nextSub]; try done;
      apply elem_of_table_subscribe; by left.
Qed.

End SubscribeExtras.

Lemma subscribe_fresh_and_listed_witness :
  let topic : SubscribeInfo ex_Entry := SubscribePrefix (ex_T ++ [comp "x"]) in
  let sub := (subscribe topic ex_filtered_and_publisher).1 in
  let this' := (subscribe topic ex_filtered_and_publisher).2 in
  built ex_filtered_and_publisher ∧
  sub ∈ listed topic this' ∧
  nameFilters this' !! sub = None.
Proof.
  intros topic sub this'.
  assert (built ex_filtered_and_publisher) as Hbuilt.
  { unfold ex_filtered_and_publisher. apply built_subscribe, built_subscribe, built_new. }
  split; [exact Hbuilt|].
  destruct (subscribe_fresh_and_listed ex_filtered_and_publisher topic Hbuilt)
    as (_ & _ & _ & Hlisted & Hfilter & _).
  split; [exact Hlisted|exact Hfilter].
Defined.

Lemma table_subscribe_NoDup (table : SubscriptionTable.t) scope sub :
  (∀ s, NoDup (SubscriptionTable.list table s)) →
  (∀ s, sub ∉ SubscriptionTable.list table s) →
  ∀ s, NoDup (SubscriptionTable.list (SubscriptionTable.subscribe table scope sub) s).
Proof.
  intros Hnodup Hfresh s. unfold SubscriptionTable.subscribe, SubscriptionTable.list at 1.
  destruct (decide (scope = s)) as [->|Hne].
  - rewrite lookup_insert_eq. cbn. apply NoDup_app. split_and!.
    + apply Hnodup.
    + intros x Hx ->%list_elem_of_singleton. by apply (Hfresh s).
    + apply NoDup_singleton.
  - rewrite lookup_insert_ne by done. apply Hnodup.
Qed.

Lemma table_subscribe_one_scope (table : SubscriptionTable.t) scope sub :
  (∀ x s s', x ∈ SubscriptionTable.list table s →
             x ∈ SubscriptionTable.list table s' → s = s') →
  (∀ s, sub ∉ SubscriptionTable.list table s) →
  ∀ x s s',
    x ∈ SubscriptionTable.list (SubscriptionTable.subscribe table scope sub) s →
    x ∈ SubscriptionTable.list (SubscriptionTable.subscribe table scope sub) s' →
    s = s'.
Proof.
  intros Hone Hfresh x s s'
    [Hin|[<- ->]]%elem_of_table_subscribe [Hin'|[<- Heq]]%elem_of_table_subscribe.
  - by eapply Hone.
  - subst x. by apply Hfresh in Hin.
  - by apply Hfresh in Hin'.
  - done.
Qed.

Section Deliveries.
Context {MappingEntry : Type} {E : SubscriberEnv MappingEntry}.
Implicit Types (this : SvSubscriber MappingEntry) (mapping : option (Mapping MappingEntry)).

Lemma built_handles_unique this : built this → handles_unique this.
Proof.
  induction 1 as [|this topic Hbuilt (Hnd & Hpd & Hone & Hsep)].
  - split_and!; intros; unfold SubscriptionTable.list in *; cbn in *;
      rewrite ?lookup_empty in *; cbn in *;
      first [apply NoDup_nil_2 | by exfalso; eapply elem_of_nil | by eapply elem_of_nil].
  - destruct (built_handles_below this Hbuilt) as [Hnb Hpb].
    assert (∀ s, nextSub this ∉ SubscriptionTable.list (nameSubs this) s) as Hfn.
    { intros s Hin. specialize (Hnb _ _ Hin). lia. }
    assert (∀ s, nextSub this ∉ SubscriptionTable.list (publisherSubs this) s) as Hfp.
    { intros s Hin. specialize (Hpb _ _ Hin). lia. }
    destruct topic as [publisher|prefix|prefix filter];
      unfold handles_unique, subscribe;
      cbn [snd nameSubs nameFilters publisherSubs nextSub]; split_and!;
      try done; try (by apply table_subscribe_NoDup);
      try (by apply table_subscribe_one_scope).
    + intros sub s s' Hin [Hin'|[_ ->]]%elem_of_table_subscribe.
      * by eapply Hsep.
      * by apply Hfn in Hin.
    + intros sub s s' [Hin|[_ ->]]%elem_of_table_subscribe Hin'.
      * by eapply Hsep.
      * by apply Hfp in Hin'.
    + intros sub s s' [Hin|[_ ->]]%elem_of_table_subscribe Hin'.
      * by eapply Hsep.
      * by apply Hfp in Hin'.
Qed.

Lemma listNameSubs_filed this name entry sub :
  sub ∈ listNameSubs this name entry →
  ∃ prefix, sub ∈ SubscriptionTable.list (nameSubs this) prefix.
Proof.
  unfold listNameSubs. rewrite list_elem_of_In, in_flat_map.
  intros (set & Hset & Hin). apply list_elem_of_In, elem_of_lpm in Hset
    as (prefix & _ & [= <-]).
  exists prefix. destruct entry; [|by apply list_elem_of_In].
  apply filter_In in Hin as [Hin _]. by apply list_elem_of_In.
Qed.

Lemma listNameSubs_NoDup_indices this name entry (indices : list nat) :
  handles_unique this →
  NoDup indices → (∀ n, n ∈ indices → (n ≤ length name)%nat) →
  NoDup (flat_map (λ set : list Sub,
      match entry with
      | Some entry =>
          List.filter (λ sub, match nameFilters this !! sub with
                              | Some filter => filter entry
                              | None => true
                              end) set
      | None => set
      end)
    ((λ n, SubscriptionTable.list (nameSubs this) (take n name)) <$> indices)).
Proof.
  intros (Hnd & _ & Hone & _) Hidx Hle.
  induction indices as [|n indices IH]; [apply NoDup_nil_2|].
  apply NoDup_cons in Hidx as [Hn Hidx]. rewrite fmap_cons. cbn [flat_map].
  assert (∀ x set,
    x ∈ match entry with
        | Some entry =>
            List.filter (λ sub, match nameFilters this !! sub with
                                | Some filter => filter entry
                                | None => true
                                end) set
        | None => set
        end → x ∈ set) as Hsub.
  { intros x set Hx. destruct entry; [|done].
    apply list_elem_of_In, filter_In in Hx as [Hx _]. by apply list_elem_of_In. }
  apply NoDup_app. split_and!.
  - destruct entry; [|apply Hnd].
    apply NoDup_ListNoDup, List.NoDup_filter, NoDup_ListNoDup, Hnd.
  - intros x Hx%Hsub Hin.
    apply list_elem_of_In, in_flat_map in Hin as (set & Hset & Hin).
    apply list_elem_of_In, list_elem_of_fmap in Hset as (n' & -> & Hn').
    apply list_elem_of_In, Hsub in Hin.
    pose proof (Hone _ _ _ Hx Hin) as Heq.
    assert (n = n') as ->; [|done].
    pose proof (Hle n ltac:(left)). pose proof (Hle n' ltac:(by right)).
    apply (f_equal length) in Heq. rewrite !length_take in Heq. lia.
  - apply IH; [done|]. intros n' Hn'. apply Hle. by right.
Qed.

(** X21: each subscription gets an update once. In a subscriber built by
    [subscribe] calls, the publisher-scoped handles of a publisher followed
    by the name handles listed for a name, the lists [dispatchUpdate]
    delivers to, contain no handle twice. *)
Theorem deliveries_are_distinct this publisher name entry :
  built this →
  NoDup (SubscriptionTable.list (publisherSubs this) publisher
           ++ listNameSubs this name entry).
Proof.
  intros Hbuilt. pose proof (built_handles_unique this Hbuilt) as Huniq.
  apply NoDup_app. split_and!.
  - apply Huniq.
  - intros sub Hpub [prefix Hname]%listNameSubs_filed.
    destruct Huniq as (_ & _ & _ & Hsep). by eapply Hsep.
  - unfold listNameSubs, lpm.
    assert (∀ l : list nat,
              omap (λ n, Some (SubscriptionTable.list (nameSubs this) (take n name))) l
              = (λ n, SubscriptionTable.list (nameSubs this) (take n name)) <$> l) as ->.
    { induction l as [|n l IH]; [done|]. cbn. by rewrite IH. }
    apply listNameSubs_NoDup_indices; [done| |].
    + rewrite reverse_Permutation. apply NoDup_seq.
    + intros n Hn%elem_of_reverse%elem_of_seq. lia.
Qed.

(** X22: with no subscription whatsoever, [handleSyncUpdate] still requests
    the outer Data of every sequence number of the range, one Interest each,
    and then delivers nothing and starts no segmented fetch. *)
Theorem handleSyncUpdate_no_subscriptions (update : SyncRange) :
  let effects := (handleSyncUpdate new_subscriber update).1 in
  sentInterests effects = outerInterest (id update) <$> seqNums update ∧
  (∀ sub u, Deliver sub u ∉ effects) ∧
  (∀ name, Fetch name ∉ effects).
Proof.
  cbv zeta.
  rewrite (handleSyncUpdate_run new_subscriber update [] None eq_refl).
  cbn [fst app].
  assert (∀ seqNum, ∃ rest,
            dispatch_outcome new_subscriber update None seqNum =
              SendInterest (outerInterest (id update) seqNum) :: rest ∧
            (rest = [] ∨ ∃ message, rest = [EmitError message])) as Hone.
  { intros seqNum. unfold dispatch_outcome.
    change (SubscriptionTable.list (publisherSubs new_subscriber) (id update))
      with (@nil nat).
    change (dispatchUpdate new_subscriber (id update) [] seqNum None)
      with (dispatchUpdate_retrieve new_subscriber (id update) [] seqNum None None).
    destruct (endpoint_consume (outerInterest (id update) seqNum)) as [outer|err] eqn:Hc;
      [destruct (decodeData (content outer)) as [inner|err] eqn:Hd;
         [destruct (innerVerifier inner) eqn:Hv|]|].
    - unfold dispatchUpdate_retrieve. cbv zeta.
      fold (outerInterest (id update) seqNum).
      unfold mbind, D_mbind, perform, lift, D_bind at 1 2. rewrite Hc.
      cbn [app]. unfold D_bind at 1.
      rewrite (decap_first new_subscriber [] seqNum None outer inner Hd Hv).
      cbv zeta.
      assert (listNameSubs new_subscriber (topic_name (data_name inner))
                (None ≫= (.!! seqNum)) = []) as ->.
      { destruct (listNameSubs _ _ _) as [|x l] eqn:Hl; [done|].
        assert (x ∈ listNameSubs (MappingEntry := MappingEntry) new_subscriber
                  (topic_name (data_name inner)) (None ≫= (.!! seqNum))) as Hx
          by (rewrite Hl; left).
        apply listNameSubs_filed in Hx as [prefix Hx].
        unfold SubscriptionTable.list in Hx. cbn in Hx.
        rewrite lookup_empty in Hx. by apply elem_of_nil in Hx. }
      cbn. eexists. split; [reflexivity|by left].
    - destruct (dispatchUpdate_retrieve_fails new_subscriber (id update) [] seqNum
                  None None) as [err ->].
      { intros o i Ho Hi. congruence. }
      eexists. split; [reflexivity|]. right. by eexists.
    - destruct (dispatchUpdate_retrieve_fails new_subscriber (id update) [] seqNum
                  None None) as [err' ->].
      { intros o i Ho Hi. congruence. }
      eexists. split; [reflexivity|]. right. by eexists.
    - destruct (dispatchUpdate_retrieve_fails new_subscriber (id update) [] seqNum
                  None None) as [err' ->].
      { intros o i Ho Hi. congruence. }
      eexists. split; [reflexivity|]. right. by eexists. }
  induction (seqNums update) as [|seqNum l (IHs & IHd & IHf)].
  - split_and!; [done|intros; apply not_elem_of_nil..].
  - destruct (Hone seqNum) as (rest & Hrun & Hrest).
    cbn [flat_map]. rewrite Hrun, fmap_cons. split_and!.
    + cbn. f_equal. rewrite sentInterests_app, IHs.
      destruct Hrest as [->|[message ->]]; done.
    + intros sub u [?|[Hin|Hin]%elem_of_app]%elem_of_cons; [done| |by eapply IHd].
      destruct Hrest as [->|[message ->]]; [by apply elem_of_nil in Hin|].
      apply list_elem_of_singleton in Hin. discriminate.
    + intros name [?|[Hin|Hin]%elem_of_app]%elem_of_cons; [done| |by eapply IHf].
      destruct Hrest as [->|[message ->]]; [by apply elem_of_nil in Hin|].
      apply list_elem_of_singleton in Hin. discriminate.
Qed.

End Deliveries.

Lemma deliveries_are_distinct_witness :
  built ex_filtered_and_publisher ∧
  NoDup (SubscriptionTable.list (publisherSubs ex_filtered_and_publisher) ex_P
           ++ listNameSubs ex_filtered_and_publisher (ex_T ++ [comp "x"]) None).
Proof.
  assert (built ex_filtered_and_publisher) as Hbuilt.
  { unfold ex_filtered_and_publisher. apply built_subscribe, built_subscribe, built_new. }
  split; [exact Hbuilt|].
  exact (deliveries_are_distinct ex_filtered_and_publisher ex_P (ex_T ++ [comp "x"]) None
           Hbuilt).
Defined.

(** ** Order of components *)

Lemma toCompareResult_EQUAL diff : toCompareResult diff = EQUAL ↔ diff = 0%Z.
Proof.
  unfold toCompareResult.
  destruct (Z.eqb_spec diff 0); [done|]. destruct (diff <? 0)%Z; split; done.
Qed.

Lemma toCompareResult_LT diff : toCompareResult diff = LT ↔ (diff < 0)%Z.
Proof.
  unfold toCompareResult.
  destruct (Z.eqb_spec diff 0); [split; [done|lia]|].
  destruct (Z.ltb_spec diff 0); split; (done || lia).
Qed.

Lemma toCompareResult_GT diff : toCompareResult diff = GT ↔ (0 < diff)%Z.
Proof.
  unfold toCompareResult.
  destruct (Z.eqb_spec diff 0); [split; [done|lia]|].
  destruct (Z.ltb_spec diff 0); split; (done || lia).
Qed.

Lemma ex_bufferCompare_EQUAL a b : ex_bufferCompare a b = 0%Z ↔ a = b.
Proof.
  revert b. induction a as [|x a IH]; intros [|y b]; cbn; try done.
  destruct (N.eqb_spec (Ascii.N_of_ascii x) (Ascii.N_of_ascii y)) as [Heq|Hne].
  - apply (f_equal Ascii.ascii_of_N) in Heq. rewrite !Ascii.ascii_N_embedding in Heq.
    subst y. rewrite IH. split; [by intros ->|by intros [= ->]].
  - split; [by destruct (_ <? _)|]. intros [= -> ->]. done.
Qed.

Lemma ex_bufferCompare_flip a b :
  (ex_bufferCompare a b < 0)%Z ↔ (0 < ex_bufferCompare b a)%Z.
Proof.
  revert b. induction a as [|x a IH]; intros [|y b]; cbn; try lia.
  rewrite (N.eqb_sym (Ascii.N_of_ascii y)).
  destruct (N.eqb_spec (Ascii.N_of_ascii x) (Ascii.N_of_ascii y)) as [Heq|Hne]; [apply IH|].
  destruct (N.ltb_spec (Ascii.N_of_ascii x) (Ascii.N_of_ascii y)),
           (N.ltb_spec (Ascii.N_of_ascii y) (Ascii.N_of_ascii x)); lia.
Qed.

(** X23: two components compare [EQUAL] exactly when they are the same
    component, TLV-TYPE and TLV-VALUE, provided the byte comparison returns
    0 exactly for equal buffers of one length; so [equals], which the source
    defines as [compare(other) === EQUAL], is equality of components. *)
Theorem Component_compare_EQUAL (bufferCompare : string → string → Z) lhs rhs :
  (∀ a b, String.length a = String.length b →
          (bufferCompare a b = 0%Z ↔ a = b)) →
  (Component_compare bufferCompare lhs rhs = EQUAL ↔ lhs = rhs) ∧
  equals_by_compare bufferCompare lhs rhs = equals lhs rhs.
Proof.
  intros Hbuf.
  assert (Component_compare bufferCompare lhs rhs = EQUAL ↔ lhs = rhs) as Hiff.
  { destruct lhs as [lt lv], rhs as [rt rv]. unfold Component_compare. cbn [type value].
    split.
    - destruct (toCompareResult (Z.of_N lt - Z.of_N rt)) eqn:Ht; cbn [or_else]; try done.
      destruct (toCompareResult (Z.of_nat (String.length lv) - _)) eqn:Hl;
        cbn [or_else]; try done.
      apply toCompareResult_EQUAL in Ht, Hl. intros Hv%toCompareResult_EQUAL.
      apply Hbuf in Hv; [|lia]. f_equal; [lia|done].
    - intros [= -> ->]. rewrite !Z.sub_diag. cbn [toCompareResult Z.eqb or_else].
      apply toCompareResult_EQUAL, Hbuf; done. }
  split; [done|]. unfold equals_by_compare, equals. by apply bool_decide_ext.
Qed.

(** X24: swapping the operands swaps the verdict: [lhs] compares [LT] to
    [rhs] exactly when [rhs] compares [GT] to [lhs], provided the byte
    comparison is negative one way exactly when it is positive the other
    way. *)
Theorem Component_compare_swap (bufferCompare : string → string → Z) lhs rhs :
  (∀ a b, (bufferCompare a b < 0)%Z ↔ (0 < bufferCompare b a)%Z) →
  Component_compare bufferCompare lhs rhs = LT ↔
  Component_compare bufferCompare rhs lhs = GT.
Proof.
  intros Hbuf. unfold Component_compare.
  set (t := (Z.of_N (type lhs) - Z.of_N (type rhs))%Z).
  set (l := (Z.of_nat (String.length (value lhs))
             - Z.of_nat (String.length (value rhs)))%Z).
  replace (Z.of_N (type rhs) - Z.of_N (type lhs))%Z with (- t)%Z by (unfold t; lia).
  replace (Z.of_nat (String.length (value rhs))
           - Z.of_nat (String.length (value lhs)))%Z with (- l)%Z by (unfold l; lia).
  pose proof (Hbuf (value lhs) (value rhs)) as Hv.
  pose proof (toCompareResult_LT (bufferCompare (value lhs) (value rhs))) as H1.
  pose proof (toCompareResult_GT (bufferCompare (value rhs) (value lhs))) as H2.
  unfold toCompareResult at 1 2 4 5.
  destruct (Z.eqb_spec t 0), (Z.eqb_spec (- t) 0); try lia; cbn [or_else].
  - destruct (Z.eqb_spec l 0), (Z.eqb_spec (- l) 0); try lia; cbn [or_else].
    + rewrite H1, H2. done.
    + destruct (Z.ltb_spec l 0), (Z.ltb_spec (- l) 0); try lia; split; done.
  - destruct (Z.ltb_spec t 0), (Z.ltb_spec (- t) 0); try lia; split; done.
Qed.

Lemma Component_compare_EQUAL_witness :
  (Component_compare ex_bufferCompare (comp "a") (comp "a") = EQUAL ↔
     comp "a" = comp "a") ∧
  equals_by_compare ex_bufferCompare (comp "a") (comp "a")
    = equals (comp "a") (comp "a").
Proof.
  apply (Component_compare_EQUAL ex_bufferCompare (comp "a") (comp "a")).
  intros a b _. apply ex_bufferCompare_EQUAL.
Defined.

Lemma Component_compare_swap_witness :
  Component_compare ex_bufferCompare (comp "a") (comp "b") = LT ↔
  Component_compare ex_bufferCompare (comp "b") (comp "a") = GT.
Proof.
  apply (Component_compare_swap ex_bufferCompare (comp "a") (comp "b")).
  apply ex_bufferCompare_flip.
Defined.
